(** * ugali.utils.batch: cross-platform batch computing interface

    A shallow embedding of [ugali/utils/batch.py] and the properties of
    its option merging, queue throttling and backend factory.

    Conventions of the embedding.
    - The program is read as Python 3 code.  Option values are the
      immutable Python objects the module handles: [None], integers and
      text strings.  A text string is represented by the bytes of its
      encoding; [str.lower], which depends on the Unicode tables of the
      Python runtime, is a parameter of the factory, and the properties
      rely only on what it does on ASCII text.
    - An [OrderedDict] is an association list with unique keys, in
      insertion order.  A keyword-argument dictionary ([**kwargs]) is the
      same, in the order in which the arguments arrive.
    - Dictionaries that the program reaches through a reference (the
      class attributes [_defaults], an instance's [default_opts], the
      [opts] handed to [remap_options], the [options] built by
      [parse_options]) live in a store and are read and written through
      their reference, so that aliasing is visible.
    - The captured standard output of a command is a byte string, as
      [Popen] is not given a text mode: its [strip] removes ASCII white
      space and its [split] takes a byte-string separator only.
      Comparisons between an integer and a non-integer raise
      [TypeError].
    - The operating system (user name, output of the commands run,
      longest sleep that the clock can represent) is a part of the
      state; what the program does to the outside world
      (commands run, log records, sleeps) is appended to a trace. *)

From Stdlib Require Import ZArith List String Ascii Bool Lia DecimalString.
Import ListNotations.
Local Open Scope string_scope.
Local Open Scope Z_scope.

(** ** Values *)

Inductive value : Type :=
| VNone
| VInt (z : Z)
| VStr (s : string).

(** [v is None] *)
Definition is_none (v : value) : bool :=
  match v with VNone => true | _ => false end.

(** Truth value of an object, as tested by [if v:]. *)
Definition truthy (v : value) : bool :=
  match v with
  | VNone => false
  | VInt z => negb (z =? 0)
  | VStr s => negb (String.eqb s "")
  end.

(** [str(z)] for an integer. *)
Definition str_int (z : Z) : string := NilZero.string_of_int (Z.to_int z).

(** [str(v)], which is what the conversion [%s] inserts. *)
Definition str (v : value) : string :=
  match v with
  | VNone => "None"
  | VInt z => str_int z
  | VStr s => s
  end.

(** ** Strings *)

Definition lower_ascii (c : ascii) : ascii :=
  let n := nat_of_ascii c in
  if ((65 <=? n) && (n <=? 90))%nat then ascii_of_nat (n + 32) else c.

(** What [s.lower()] is for a text [s] made of ASCII characters: the
    letters A to Z are replaced by a to z. *)
Fixpoint ascii_lower (s : string) : string :=
  match s with
  | EmptyString => EmptyString
  | String c r => String (lower_ascii c) (ascii_lower r)
  end.

Fixpoint is_ascii (s : string) : bool :=
  match s with
  | EmptyString => true
  | String c r => (nat_of_ascii c <? 128)%nat && is_ascii r
  end.

(** White space as [strip()] of a byte string sees it: HT, LF, VT, FF,
    CR and space. *)
Definition is_space (c : ascii) : bool :=
  let n := nat_of_ascii c in
  (((9 <=? n) && (n <=? 13)) || (n =? 32))%nat.

Fixpoint lstrip (s : string) : string :=
  match s with
  | EmptyString => EmptyString
  | String c r => if is_space c then lstrip r else s
  end.

(** [rstrip]: a character is kept when it is not white space or when
    something is kept after it. *)
Fixpoint rstrip (s : string) : string :=
  match s with
  | EmptyString => EmptyString
  | String c r =>
      match rstrip r with
      | EmptyString => if is_space c then EmptyString else String c EmptyString
      | r' => String c r'
      end
  end.

(** [s.strip()] *)
Definition strip (s : string) : string := rstrip (lstrip s).

(** [s.split(sep)] for a one-character separator: never empty. *)
Fixpoint split (sep : ascii) (s : string) : list string :=
  match s with
  | EmptyString => [EmptyString]
  | String c r =>
      if Ascii.eqb c sep then EmptyString :: split sep r
      else match split sep r with
           | [] => [String c EmptyString]
           | h :: t => String c h :: t
           end
  end.

Definition LF : ascii := ascii_of_nat 10.

(** [''.join(l)] *)
Definition join (l : list string) : string := String.concat "" l.

(** ** Ordered dictionaries *)

Module odict.
Set Implicit Arguments.
Section Ops.
Variable V : Type.

Definition t := list (string * V).

Definition keys (d : t) : list string := map fst d.
Definition values (d : t) : list V := map snd d.

  (** [d.get(k)], [None] when the key is absent. *)
Fixpoint get (k : string) (d : t) : option V :=
    match d with
    | [] => None
    | (k', v) :: r => if String.eqb k' k then Some v else get k r
    end.

  (** [k in d] *)
Definition contains (k : string) (d : t) : bool :=
    match get k d with Some _ => true | None => false end.

  (** [d[k] = v]: an existing key keeps its place, a new one goes last. *)
Fixpoint setitem (k : string) (v : V) (d : t) : t :=
    match d with
    | [] => [(k, v)]
    | (k', v') :: r =>
        if String.eqb k' k then (k', v) :: r else (k', v') :: setitem k v r
    end.

  (** [d.update(items)]: the items are stored one after the other. *)
Definition update (d : t) (items : t) : t :=
    fold_left (fun acc kv => setitem (fst kv) (snd kv) acc) items d.

  (** The dictionary that [d.pop(k, ...)] leaves behind. *)
Fixpoint remove (k : string) (d : t) : t :=
    match d with
    | [] => []
    | (k', v) :: r => if String.eqb k' k then r else (k', v) :: remove k r
    end.

  (** [d.setdefault(k, v)], as far as the dictionary is concerned. *)
Definition setdefault (k : string) (v : V) (d : t) : t :=
    match get k d with
    | Some _ => d
    | None => (d ++ [(k, v)])%list
    end.
End Ops.
Unset Implicit Arguments.
End odict.

Abbreviation odict := odict.t.

(** [d.get(k)] on a dictionary of values: an absent key reads [None]. *)
Definition get_value (k : string) (d : odict value) : value :=
  match odict.get k d with Some v => v | None => VNone end.

(** [d.pop(k, None)]: the value and the dictionary left. *)
Definition pop_none (k : string) (d : odict value) : value * odict value :=
  (get_value k d, odict.remove k d).

(** [x in l] for a list of strings. *)
Definition mem (x : string) (l : list string) : bool :=
  existsb (String.eqb x) l.

(** A table whose keys are queue names or [None]. *)
Definition qtable := list (option string * string).

Definition qkey_eqb (a b : option string) : bool :=
  match a, b with
  | None, None => true
  | Some x, Some y => String.eqb x y
  | _, _ => false
  end.

Fixpoint qfind (k : option string) (t : qtable) : option string :=
  match t with
  | [] => None
  | (k', v) :: r => if qkey_eqb k' k then Some v else qfind k r
  end.

(** [table[queue]] where [queue] is any value: an integer is equal to no
    key of these tables. *)
Definition qlookup (queue : value) (t : qtable) : option string :=
  match queue with
  | VNone => qfind None t
  | VStr s => qfind (Some s) t
  | VInt _ => None
  end.

(** ** The store, the outside world and the monad of the program *)

(** The classes of the module; [Batch] is the base class. *)
Inductive klass : Type := Batch | Local | LSF | Slurm | Condor.

(** A reference to a dictionary: the [_defaults] attribute that a class
    defines, or an object created while the program runs. *)
Inductive ref : Type :=
| ClassDefaults (c : klass)
| Obj (n : nat).

Inductive level : Type := LDebug | LInfo | LWarning.

(** What the program does to the outside world. *)
Inductive event : Type :=
| EPopen (command : string)
| ECall (command : string)
| ELog (l : level) (msg : string)
| ESleep (seconds : Z).

(** The exceptions of the program.  [InvalidRef] is not one of Python's:
    it is the outcome of following a reference that denotes nothing,
    which the references that the program creates never do. *)
Inductive exn : Type :=
| TypeError (msg : string)
| KeyError (key : string)
| AttributeError (msg : string)
| Exception_ (msg : string)
| ValueError (msg : string)
| OverflowError (msg : string)
| InvalidRef (r : ref).

(** The module-level tables and the class attributes. *)
Record globals : Type := {
  CLUSTERS : odict (list string);
  QUEUES : odict (list string);
  RUNLIMITS : qtable;
  MPIOPTS : qtable;
  Batch_defaults : odict value;
  Batch_mapping : odict string;
  LSF_defaults : odict value;
  LSF_mapping : odict string;
  Slurm_defaults : odict value
}.

Record state : Type := {
  glob : globals;
  heap : list (odict value);
  username : string;
  stdout : nat -> string -> string;
  status : nat -> string -> Z;
  max_sleep : Z;
  trace : list event
}.

Definition set_glob (g : globals) (st : state) : state :=
  {| glob := g; heap := heap st; username := username st;
     stdout := stdout st; status := status st; max_sleep := max_sleep st;
     trace := trace st |}.

Definition set_heap (h : list (odict value)) (st : state) : state :=
  {| glob := glob st; heap := h; username := username st;
     stdout := stdout st; status := status st; max_sleep := max_sleep st;
     trace := trace st |}.

Definition set_trace (t : list event) (st : state) : state :=
  {| glob := glob st; heap := heap st; username := username st;
     stdout := stdout st; status := status st; max_sleep := max_sleep st;
     trace := t |}.

(** How a computation ends: with a result, with an exception, or not
    within the number of loop iterations it was allowed. *)
Inductive outcome (A : Type) : Type :=
| Ok (a : A)
| Raise (e : exn)
| OutOfFuel.

Arguments Ok {A} a.
Arguments Raise {A} e.
Arguments OutOfFuel {A}.

Definition M (A : Type) : Type := state -> outcome A * state.

Definition ret {A} (a : A) : M A := fun st => (Ok a, st).

Definition raise {A} (e : exn) : M A := fun st => (Raise e, st).

(** A step that neither reads nor changes the state. *)
Definition lift {A} (o : outcome A) : M A := fun st => (o, st).

Definition bind {A B} (m : M A) (f : A -> M B) : M B :=
  fun st =>
    match m st with
    | (Ok a, st') => f a st'
    | (Raise e, st') => (Raise e, st')
    | (OutOfFuel, st') => (OutOfFuel, st')
    end.

Notation "x <- m ;; k" := (bind m (fun x => k))
  (at level 61, m at next level, right associativity).
Notation "m ;;; k" := (bind m (fun _ => k))
  (at level 61, right associativity).

Definition gets {A} (f : state -> A) : M A := fun st => (Ok (f st), st).

Definition emit (e : event) : M unit :=
  fun st => (Ok tt, set_trace (trace st ++ [e])%list st).

(** [for x in l: body x] *)
Fixpoint for_each {A} (l : list A) (body : A -> M unit) : M unit :=
  match l with
  | [] => ret tt
  | x :: r => body x ;;; for_each r body
  end.

(** *** The store *)

Definition read_globals (c : klass) (g : globals) : option (odict value) :=
  match c with
  | Batch => Some (Batch_defaults g)
  | LSF => Some (LSF_defaults g)
  | Slurm => Some (Slurm_defaults g)
  | Local | Condor => None
  end.

Definition write_globals (c : klass) (d : odict value) (g : globals)
  : option globals :=
  match c with
  | Batch =>
      Some {| CLUSTERS := CLUSTERS g; QUEUES := QUEUES g;
              RUNLIMITS := RUNLIMITS g; MPIOPTS := MPIOPTS g;
              Batch_defaults := d; Batch_mapping := Batch_mapping g;
              LSF_defaults := LSF_defaults g; LSF_mapping := LSF_mapping g;
              Slurm_defaults := Slurm_defaults g |}
  | LSF =>
      Some {| CLUSTERS := CLUSTERS g; QUEUES := QUEUES g;
              RUNLIMITS := RUNLIMITS g; MPIOPTS := MPIOPTS g;
              Batch_defaults := Batch_defaults g;
              Batch_mapping := Batch_mapping g;
              LSF_defaults := d; LSF_mapping := LSF_mapping g;
              Slurm_defaults := Slurm_defaults g |}
  | Slurm =>
      Some {| CLUSTERS := CLUSTERS g; QUEUES := QUEUES g;
              RUNLIMITS := RUNLIMITS g; MPIOPTS := MPIOPTS g;
              Batch_defaults := Batch_defaults g;
              Batch_mapping := Batch_mapping g;
              LSF_defaults := LSF_defaults g; LSF_mapping := LSF_mapping g;
              Slurm_defaults := d |}
  | Local | Condor => None
  end.

Definition lookup_ref (r : ref) (st : state) : option (odict value) :=
  match r with
  | ClassDefaults c => read_globals c (glob st)
  | Obj n => nth_error (heap st) n
  end.

(** Replace the element at an index of the heap. *)
Fixpoint replace_nth (n : nat) (d : odict value) (h : list (odict value))
  : list (odict value) :=
  match h, n with
  | [], _ => []
  | _ :: r, O => d :: r
  | x :: r, S n' => x :: replace_nth n' d r
  end.

(** The dictionary behind a reference. *)
Definition deref (r : ref) : M (odict value) :=
  fun st =>
    match lookup_ref r st with
    | Some d => (Ok d, st)
    | None => (Raise (InvalidRef r), st)
    end.

(** Overwrite the dictionary behind a reference: every holder of the
    reference sees the change. *)
Definition assign (r : ref) (d : odict value) : M unit :=
  fun st =>
    match r with
    | ClassDefaults c =>
        match write_globals c d (glob st) with
        | Some g => (Ok tt, set_glob g st)
        | None => (Raise (InvalidRef r), st)
        end
    | Obj n =>
        if (n <? List.length (heap st))%nat
        then (Ok tt, set_heap (replace_nth n d (heap st)) st)
        else (Raise (InvalidRef r), st)
    end.

(** A mutation in place, such as [d.update(...)] or [d[k] = v]. *)
Definition modify (r : ref) (f : odict value -> odict value) : M unit :=
  d <- deref r ;; assign r (f d).

(** A new dictionary object with the given contents. *)
Definition alloc (d : odict value) : M ref :=
  fun st => (Ok (Obj (List.length (heap st))), set_heap (heap st ++ [d])%list st).

(** [d[k]] on a dictionary value. *)
Definition getitem {V} (k : string) (d : odict V) : outcome V :=
  match odict.get k d with
  | Some v => Ok v
  | None => Raise (KeyError k)
  end.

(** ** String formatting with a mapping: [template % params] *)

Inductive fmode : Type :=
| FText
| FPercent
| FName (name : string)
| FConv (name : string).

Definition omap {A B} (f : A -> B) (o : outcome A) : outcome B :=
  match o with
  | Ok a => Ok (f a)
  | Raise e => Raise e
  | OutOfFuel => OutOfFuel
  end.

(** The conversions the module uses: [%(name)s] and [%%]. *)
Fixpoint pct_scan (m : fmode) (template : string) (params : odict value)
  : outcome string :=
  match template with
  | EmptyString =>
      match m with
      | FText => Ok ""
      | _ => Raise (ValueError "incomplete format")
      end
  | String c r =>
      match m with
      | FText =>
          if Ascii.eqb c "%" then pct_scan FPercent r params
          else omap (String c) (pct_scan FText r params)
      | FPercent =>
          if Ascii.eqb c "(" then pct_scan (FName "") r params
          else if Ascii.eqb c "%" then omap (String c) (pct_scan FText r params)
          else Raise (ValueError "unsupported format character")
      | FName name =>
          if Ascii.eqb c ")" then pct_scan (FConv name) r params
          else pct_scan (FName (name ++ String c "")) r params
      | FConv name =>
          if Ascii.eqb c "s" then
            match odict.get name params with
            | Some v => omap (append (str v)) (pct_scan FText r params)
            | None => Raise (KeyError name)
            end
          else Raise (ValueError "unsupported format character")
      end
  end.

Definition pct_format (template : string) (params : odict value)
  : outcome string :=
  pct_scan FText template params.

(** ** The module *)

(** *** Tables *)

Definition CLUSTERS0 : odict (list string) :=
  [ ("local", ["local"]);
    ("lsf", ["lsf"; "slac"; "kipac"]);
    ("slurm", ["slurm"; "midway"; "kicp"]);
    ("condor", ["condor"; "fnal"]) ].

Definition QUEUES0 : odict (list string) :=
  [ ("local", []);
    ("lsf", ["express"; "short"; "medium"; "long"; "xlong"; "xxl";
             "kipac-ibq"; "bulletmpi"]);
    ("slurm", []);
    ("condor", ["local"; "vanilla"; "universe"; "grid"]) ].

Definition RUNLIMITS0 : qtable :=
  [ (None, "4:00");
    (Some "express", "0:04");
    (Some "short", "0:30");
    (Some "medium", "1:00");
    (Some "long", "4:00");
    (Some "xlong", "72:00");
    (Some "xxl", "168:00");
    (Some "kipac-ibq", "36:00");
    (Some "bulletmpi", "36:00") ].

Definition DQUOTE : string := String (ascii_of_nat 34) "".

Definition MPIOPTS0 : qtable :=
  [ (None, " -R " ++ DQUOTE ++ "span[ptile=4]" ++ DQUOTE);
    (Some "local", "");
    (Some "short", "");
    (Some "medium", "");
    (Some "kipac-ibq", " -R " ++ DQUOTE ++ "span[ptile=8]" ++ DQUOTE);
    (Some "bulletmpi", " -R " ++ DQUOTE ++ "span[ptile=16]" ++ DQUOTE) ].

(** The state of the module once it has been imported. *)
Definition globals0 : globals :=
  {| CLUSTERS := CLUSTERS0;
     QUEUES := QUEUES0;
     RUNLIMITS := RUNLIMITS0;
     MPIOPTS := MPIOPTS0;
     Batch_defaults := [];
     Batch_mapping := [];
     LSF_defaults :=
       [ ("R", VStr (DQUOTE ++ "scratch > 1 && rhel60" ++ DQUOTE));
         ("C", VInt 0) ];
     LSF_mapping := [ ("jobname", "J"); ("logfile", "oo") ];
     Slurm_defaults :=
       [ ("account", VStr "kicp");
         ("partition", VStr "kicp-ht");
         ("mem", VInt 10000) ] |}.

(** *** Instances *)

Record batch : Type := {
  cls : klass;
  user : string;
  max_jobs : value;
  default_opts : ref;
  submit_cmd : string;
  jobs_cmd : string
}.

Definition with_cmds (jobs submit : string) (b : batch) : batch :=
  {| cls := cls b; user := user b; max_jobs := max_jobs b;
     default_opts := default_opts b;
     submit_cmd := submit; jobs_cmd := jobs |}.

(** Attribute lookup through the classes: where [self._defaults] and
    [self._mapping] are found. *)
Definition defaults_ref (c : klass) : ref :=
  match c with
  | LSF => ClassDefaults LSF
  | Slurm => ClassDefaults Slurm
  | Batch | Local | Condor => ClassDefaults Batch
  end.

Definition mapping_of (c : klass) (g : globals) : odict string :=
  match c with
  | LSF => LSF_mapping g
  | Batch | Local | Slurm | Condor => Batch_mapping g
  end.

Definition warning (msg : string) : M unit := emit (ELog LWarning msg).
Definition info (msg : string) : M unit := emit (ELog LInfo msg).
Definition debug (msg : string) : M unit := emit (ELog LDebug msg).

(** [Batch.__init__] for an instance of class [c]. *)
Definition Batch_init (c : klass) (kwargs : odict value) : M batch :=
  u <- gets username ;;
  let (mj, kwargs) := pop_none "max_jobs" kwargs in
  d <- deref (defaults_ref c) ;;
  r <- alloc d ;;
  modify r (fun d => odict.update d kwargs) ;;;
  ret {| cls := c; user := u; max_jobs := mj; default_opts := r;
         submit_cmd := "submit %(opts)s %(command)s";
         jobs_cmd := "jobs" |}.

Definition Local_init (kwargs : odict value) : M batch :=
  self <- Batch_init Local kwargs ;;
  ret (with_cmds "echo 0" "%(command)s %(opts)s" self).

Definition LSF_init (kwargs : odict value) : M batch :=
  self <- Batch_init LSF kwargs ;;
  ret (with_cmds ("bjobs -u " ++ user self) "bsub %(opts)s %(command)s" self).

Definition Slurm_init (kwargs : odict value) : M batch :=
  self <- Batch_init Slurm kwargs ;;
  warning "Slurm cluster is untested" ;;;
  ret (with_cmds ("squeue -u " ++ user self) "sbatch %(opts)s %(command)s"
         self).

Definition Condor_init (kwargs : odict value) : M batch :=
  self <- Batch_init Condor kwargs ;;
  warning "Condor cluster is untested" ;;;
  ret (with_cmds ("condor_q -u " ++ user self) "csub %(opts)s %(command)s"
         self).

(** Instantiation of class [c] with keyword arguments. *)
Definition new (c : klass) (kwargs : odict value) : M batch :=
  match c with
  | Batch => Batch_init Batch kwargs
  | Local => Local_init kwargs
  | LSF => LSF_init kwargs
  | Slurm => Slurm_init kwargs
  | Condor => Condor_init kwargs
  end.

(** *** The process runner *)

Definition is_popen (e : event) : bool :=
  match e with EPopen _ => true | _ => false end.

Definition is_call (e : event) : bool :=
  match e with ECall _ => true | _ => false end.

Definition count_events (p : event -> bool) (t : list event) : nat :=
  List.length (filter p t).

(** [self.popen(command).communicate()[0]]: the command is run and its
    standard output captured. *)
Definition popen_stdout (command : string) : M string :=
  fun st =>
    (Ok (stdout st (count_events is_popen (trace st)) command),
     set_trace (trace st ++ [EPopen command])%list st).

(** [Batch.call] *)
Definition call (self : batch) (command : string) : M Z :=
  debug command ;;;
  fun st =>
    (Ok (status st (count_events is_call (trace st)) command),
     set_trace (trace st ++ [ECall command])%list st).

(** [time.sleep(seconds)] for an integer: a negative length is refused,
    and so is one that the clock of the platform cannot represent
    ([max_sleep], for CPython the largest number of seconds whose count
    of nanoseconds fits a signed 64-bit integer). *)
Definition sleep_for (seconds : Z) : M unit :=
  if seconds <? 0
  then raise (ValueError "sleep length must be non-negative")
  else
    longest <- gets max_sleep ;;
    if longest <? seconds
    then raise (OverflowError "timestamp too large to convert to C _PyTime_t")
    else emit (ESleep seconds).

(** *** Counting the jobs *)

(** [Batch.jobs]: the output is a byte string. *)
Definition jobs (self : batch) : M string := popen_stdout (jobs_cmd self).

(** The separator given to [split]: a text literal such as ['\n'], or a
    byte-string literal such as [b'\n']. *)
Inductive separator : Type :=
| TextSep (c : ascii)
| BytesSep (c : ascii).

(** [b.split(sep)] for a byte string [b]: the separator has to be a
    byte string as well. *)
Definition bytes_split (sep : separator) (b : string)
  : outcome (list string) :=
  match sep with
  | BytesSep c => Ok (split c b)
  | TextSep _ =>
      Raise (TypeError "a bytes-like object is required, not 'str'")
  end.

(** [len(jobs.strip().split('\n'))-1 if jobs else 0], where [jobs] is
    the byte string of [Batch.jobs] and ['\n'] a text literal. *)
Definition count_lines (jobs : string) : outcome Z :=
  match jobs with
  | EmptyString => Ok 0
  | _ =>
      omap (fun lines => Z.of_nat (List.length lines) - 1)
        (bytes_split (TextSep LF) (strip jobs))
  end.

(** [Batch.njobs] *)
Definition Batch_njobs (self : batch) : M Z :=
  out <- jobs self ;;
  lift (count_lines out).

(** [Local.njobs] *)
Definition Local_njobs (self : batch) : M Z := ret 0.

(** [self.njobs()] *)
Definition njobs (self : batch) : M Z :=
  match cls self with
  | Local => Local_njobs self
  | Batch | LSF | Slurm | Condor => Batch_njobs self
  end.

(** *** Throttling *)

(** [n < v] for an integer [n]. *)
Definition int_lt (n : Z) (v : value) : outcome bool :=
  match v with
  | VInt m => Ok (n <? m)
  | VStr _ => Raise (TypeError "'<' not supported between 'int' and 'str'")
  | VNone =>
      Raise (TypeError "'<' not supported between 'int' and 'NoneType'")
  end.

(** The [while True] loop of [throttle]; [fuel] bounds the number of
    polls. *)
Fixpoint throttle_loop (fuel : nat) (self : batch) (max_jobs : value)
  (sleep : Z) : M unit :=
  match fuel with
  | O => fun st => (OutOfFuel, st)
  | S fuel' =>
      n <- njobs self ;;
      below <- lift (int_lt n max_jobs) ;;
      if below then ret tt
      else
        info (str_int n ++ " jobs already in queue, waiting...") ;;;
        sleep_for sleep ;;;
        throttle_loop fuel' self max_jobs sleep
  end.

(** [Batch.throttle] *)
Definition throttle (fuel : nat) (self : batch) (max_jobs' : value)
  (sleep : Z) : M unit :=
  let max_jobs' := if is_none max_jobs' then max_jobs self else max_jobs' in
  if is_none max_jobs' then ret tt
  else throttle_loop fuel self max_jobs' sleep.

(** *** Options *)

(** [Batch.remap_options]: [opts] is the caller's dictionary. *)
Definition remap_options (self : batch) (opts : ref) : M unit :=
  mapping <- gets (fun st => mapping_of (cls self) (glob st)) ;;
  for_each (odict.keys mapping) (fun k =>
    d <- deref opts ;;
    let (v, d') := pop_none k d in
    assign opts d' ;;;
    if is_none v then ret tt
    else
      mapping <- gets (fun st => mapping_of (cls self) (glob st)) ;;
      k' <- lift (getitem k mapping) ;;
      modify opts (odict.setitem k' v)).

(** [Local.parse_options] *)
Definition Local_parse_options (self : batch) (opts : odict value)
  : M string :=
  if truthy (get_value "logfile" opts)
  then lift (pct_format " 2>&1 | tee %(logfile)s" opts)
  else ret "".

(** [LSF.runlimit] *)
Definition runlimit (self : batch) (queue : value) : M string :=
  t <- gets (fun st => RUNLIMITS (glob st)) ;;
  match qlookup queue t with
  | Some w => ret w
  | None =>
      t <- gets (fun st => RUNLIMITS (glob st)) ;;
      match qlookup VNone t with
      | Some w => ret w
      | None => raise (KeyError "None")
      end
  end.

(** [LSF.mpiopts] *)
Definition mpiopts (self : batch) (queue : value) : M string :=
  t <- gets (fun st => MPIOPTS (glob st)) ;;
  match qlookup queue t with
  | Some w => ret w
  | None =>
      t <- gets (fun st => MPIOPTS (glob st)) ;;
      match qlookup VNone t with
      | Some w => ret w
      | None => raise (KeyError "None")
      end
  end.

(** [v + s] for a string [s]. *)
Definition add_str (v : value) (s : string) : outcome value :=
  match v with
  | VStr a => Ok (VStr (a ++ s))
  | VInt _ =>
      Raise (TypeError "unsupported operand type(s) for +=: 'int' and 'str'")
  | VNone =>
      Raise
        (TypeError "unsupported operand type(s) for +=: 'NoneType' and 'str'")
  end.

(** [''.join(prefix + '%s %s ' % (k,v) for k,v in options.items())] *)
Definition serialize (prefix : string) (options : odict value) : string :=
  join (map (fun kv => prefix ++ fst kv ++ " " ++ str (snd kv) ++ " ") options).

(** [LSF.parse_options] *)
Definition LSF_parse_options (self : batch) (opts : odict value) : M string :=
  d <- deref (default_opts self) ;;
  options <- alloc d ;;
  modify options (fun o => odict.update o opts) ;;;
  o <- deref options ;;
  (if odict.contains "n" o then
     r <- (o <- deref options ;; lift (getitem "R" o)) ;;
     q <- (o <- deref options ;; ret (get_value "q" o)) ;;
     m <- mpiopts self q ;;
     r' <- lift (add_str r m) ;;
     modify options (odict.setitem "R" r')
   else ret tt) ;;;
  q <- (o <- deref options ;; ret (get_value "q" o)) ;;
  w <- runlimit self q ;;
  modify options (odict.setdefault "W" (VStr w)) ;;;
  o <- deref options ;;
  ret (serialize "-" o).

(** [Slurm.parse_options] *)
Definition Slurm_parse_options (self : batch) (opts : odict value)
  : M string :=
  d <- deref (default_opts self) ;;
  options <- alloc d ;;
  modify options (fun o => odict.update o opts) ;;;
  o <- deref options ;;
  ret (serialize "--" o).

(** [self.parse_options(...)]: [Batch] and [Condor] have no such method. *)
Definition parse_options (self : batch) (opts : odict value) : M string :=
  match cls self with
  | Local => Local_parse_options self opts
  | LSF => LSF_parse_options self opts
  | Slurm => Slurm_parse_options self opts
  | Batch =>
      raise (AttributeError "'Batch' object has no attribute 'parse_options'")
  | Condor =>
      raise (AttributeError "'Condor' object has no attribute 'parse_options'")
  end.

(** *** Building and submitting a command *)

(** [Batch.batch]; [opts] are the extra keyword arguments. *)
Definition batch_cmd (self : batch) (command : string) (jobname logfile : value)
  (opts : odict value) : M string :=
  opts <- alloc opts ;;
  (if truthy jobname
   then modify opts (fun o => odict.update o [("jobname", jobname)])
   else ret tt) ;;;
  (if truthy logfile
   then modify opts (fun o => odict.update o [("logfile", logfile)])
   else ret tt) ;;;
  remap_options self opts ;;;
  o <- deref opts ;;
  s <- parse_options self o ;;
  lift (pct_format (submit_cmd self)
          [("opts", VStr s); ("command", VStr command)]).

(** [Batch.submit] *)
Definition submit (fuel : nat) (self : batch) (command : string)
  (jobname logfile : value) (opts : odict value) : M string :=
  cmd <- batch_cmd self command jobname logfile opts ;;
  throttle fuel self VNone 60 ;;;
  call self cmd ;;;
  ret cmd.

(** *** The factory *)

(** [factory]; [str_lower] is the method [str.lower] of the runtime. *)
Definition factory (str_lower : string -> string) (queue : option string)
  (kwargs : odict value) : M batch :=
  let queue := match queue with None => "local" | Some q => q end in
  let name := str_lower queue in
  queues <- gets (fun st => QUEUES (glob st)) ;;
  let kwargs :=
    if mem name (List.concat (odict.values queues))
    then odict.setdefault "q" (VStr name) kwargs
    else kwargs in
  family <- (c <- (t <- gets (fun st => CLUSTERS (glob st)) ;; lift (getitem "local" t)) ;;
             q <- (t <- gets (fun st => QUEUES (glob st)) ;; lift (getitem "local" t)) ;;
             ret (c ++ q)%list) ;;
  if mem name family then new Local kwargs
  else
    family <- (c <- (t <- gets (fun st => CLUSTERS (glob st)) ;; lift (getitem "lsf" t)) ;;
               q <- (t <- gets (fun st => QUEUES (glob st)) ;; lift (getitem "lsf" t)) ;;
               ret (c ++ q)%list) ;;
    if mem name family then new LSF kwargs
    else
      family <- (c <- (t <- gets (fun st => CLUSTERS (glob st)) ;; lift (getitem "slurm" t)) ;;
                 q <- (t <- gets (fun st => QUEUES (glob st)) ;; lift (getitem "slurm" t)) ;;
                 ret (c ++ q)%list) ;;
      if mem name family then new Slurm kwargs
      else
        family <- (c <- (t <- gets (fun st => CLUSTERS (glob st)) ;; lift (getitem "condor" t)) ;;
                   q <- (t <- gets (fun st => QUEUES (glob st)) ;; lift (getitem "condor" t)) ;;
                   ret (c ++ q)%list) ;;
        if mem name family then
          _ <- new Condor kwargs ;;
          raise (Exception_ "Condor cluster not implemented")
        else raise (TypeError ("Unexpected queue name: " ++ name)).

(** ** Auxiliary notions used to state the properties *)

(** The keys that [update] appends to a dictionary whose keys are [seen],
    in the order in which they arrive. *)
Fixpoint new_keys (seen ks : list string) : list string :=
  match ks with
  | [] => []
  | k :: r => if mem k seen then new_keys seen r
              else k :: new_keys (seen ++ [k])%list r
  end.

(** The class-level dictionary that [self._defaults] denotes. *)
Definition class_defaults (c : klass) (g : globals) : odict value :=
  match c with
  | LSF => LSF_defaults g
  | Slurm => Slurm_defaults g
  | Batch | Local | Condor => Batch_defaults g
  end.

(** The instance that the constructor of class [c] returns in state [st],
    the events it logs and the contents of the dictionary it creates. *)
Definition instance_of (c : klass) (kwargs : odict value) (st : state)
  : batch :=
  let self :=
    {| cls := c; user := username st;
       max_jobs := get_value "max_jobs" kwargs;
       default_opts := Obj (List.length (heap st));
       submit_cmd := "submit %(opts)s %(command)s";
       jobs_cmd := "jobs" |} in
  match c with
  | Batch => self
  | Local => with_cmds "echo 0" "%(command)s %(opts)s" self
  | LSF =>
      with_cmds ("bjobs -u " ++ username st) "bsub %(opts)s %(command)s" self
  | Slurm =>
      with_cmds ("squeue -u " ++ username st) "sbatch %(opts)s %(command)s"
        self
  | Condor =>
      with_cmds ("condor_q -u " ++ username st) "csub %(opts)s %(command)s"
        self
  end.

Definition init_warnings (c : klass) : list event :=
  match c with
  | Slurm => [ELog LWarning "Slurm cluster is untested"]
  | Condor => [ELog LWarning "Condor cluster is untested"]
  | Batch | Local | LSF => []
  end.

Definition instance_opts (c : klass) (kwargs : odict value) (g : globals)
  : odict value :=
  odict.update (class_defaults c g) (odict.remove "max_jobs" kwargs).

(** [table[queue]], or [table[None]] when [queue] is not a key. *)
Definition qdefault (t : qtable) (queue : value) : option string :=
  match qlookup queue t with
  | Some w => Some w
  | None => qlookup VNone t
  end.

Definition qget (t : qtable) (queue : value) : outcome string :=
  match qdefault t queue with
  | Some w => Ok w
  | None => Raise (KeyError "None")
  end.

Definition obind {A B} (o : outcome A) (f : A -> outcome B) : outcome B :=
  match o with
  | Ok a => f a
  | Raise e => Raise e
  | OutOfFuel => OutOfFuel
  end.

(** What [LSF.parse_options] does to the merged options, without the
    store: the placement string is appended to ["R"] when a processor
    count is present, then ["W"] gets its default. *)
Definition LSF_adjust_R (g : globals) (o : odict value)
  : outcome (odict value) :=
  if odict.contains "n" o then
    obind (getitem "R" o) (fun r =>
    obind (qget (MPIOPTS g) (get_value "q" o)) (fun m =>
    omap (fun r' => odict.setitem "R" r' o) (add_str r m)))
  else Ok o.

Definition LSF_default_W (g : globals) (o : odict value)
  : outcome (odict value) :=
  omap (fun w => odict.setdefault "W" (VStr w) o)
    (qget (RUNLIMITS g) (get_value "q" o)).

Definition LSF_options (g : globals) (d opts : odict value)
  : outcome (odict value) :=
  obind (LSF_adjust_R g (odict.update d opts)) (LSF_default_W g).

(** [frame n st st']: from [st] to [st'] the module-level tables, the
    class attributes, the operating system and the first [n] objects of
    the heap are unchanged; the heap and the trace only grow. *)
Definition frame (n : nat) (st st' : state) : Prop :=
  glob st' = glob st /\
  username st' = username st /\ stdout st' = stdout st /\
  status st' = status st /\
  (exists t, trace st' = trace st ++ t)%list /\
  (List.length (heap st) <= List.length (heap st'))%nat /\
  forall i, (i < n)%nat -> nth_error (heap st') i = nth_error (heap st) i.

(** A computation that respects the frame below [n], whatever its
    outcome, and whose results satisfy [Q]. *)
Definition keeps {A} (n : nat) (m : M A) (Q : A -> Prop) : Prop :=
  forall st o st',
    (n <= List.length (heap st))%nat -> m st = (o, st') ->
    frame n st st' /\ forall a, o = Ok a -> Q a.

Definition any {A} : A -> Prop := fun _ => True.

(** An object at address [n] or above. *)
Definition fresh_from (n : nat) (r : ref) : Prop :=
  exists m, r = Obj m /\ (n <= m)%nat.



(** The ceiling that [throttle] enforces. *)
Definition ceiling (self : batch) (max_jobs' : value) : value :=
  if is_none max_jobs' then max_jobs self else max_jobs'.

(** The name that [factory] resolves and the keyword arguments it hands
    to the constructor. *)
Definition factory_name (str_lower : string -> string)
  (queue : option string) : string :=
  str_lower (match queue with None => "local" | Some q => q end).

(** A function that does on ASCII text what [str.lower] does. *)
Definition lowers_ascii (str_lower : string -> string) : Prop :=
  forall s, is_ascii s = true -> str_lower s = ascii_lower s.

Definition all_queues (g : globals) : list string :=
  List.concat (odict.values (QUEUES g)).

Definition factory_kwargs (g : globals) (name : string)
  (kwargs : odict value) : odict value :=
  if mem name (all_queues g)
  then odict.setdefault "q" (VStr name) kwargs
  else kwargs.

(** The aliases and queue names of a backend family, as [factory] reads
    them from the tables of the module. *)
Definition family_names (k : string) : list string :=
  match odict.get k CLUSTERS0, odict.get k QUEUES0 with
  | Some c, Some q => (c ++ q)%list
  | _, _ => []
  end.

(** The class that the [if]/[elif] chain of [factory] selects. *)
Definition family (name : string) : option klass :=
  if mem name (family_names "local") then Some Local
  else if mem name (family_names "lsf") then Some LSF
  else if mem name (family_names "slurm") then Some Slurm
  else if mem name (family_names "condor") then Some Condor
  else None.

(** What the expression of [njobs] counts once the lines are split:
    the lines of the stripped listing, less one for the header. *)
Definition lines_less_header (jobs : string) : Z :=
  Z.of_nat (List.length (split LF (strip jobs))) - 1.

(** How [parse_options] writes one option. *)
Definition flag (prefix : string) (kv : string * value) : string :=
  prefix ++ fst kv ++ " " ++ str (snd kv) ++ " ".

(** A list of keys without repetition, as the keys of a keyword-argument
    dictionary are. *)
Fixpoint distinct (l : list string) : bool :=
  match l with
  | [] => true
  | k :: r => negb (mem k r) && distinct r
  end.

(** The value that wins for a key: the call, else the instance, else the
    class. *)
Definition layered (k : string) (defaults inst opts : odict value)
  : option value :=
  match odict.get k opts with
  | Some v => Some v
  | None =>
      match odict.get k inst with
      | Some v => Some v
      | None => odict.get k defaults
      end
  end.

(** A state of the program right after the module has been imported. *)
Definition initial (user : string) (out : nat -> string -> string) : state :=
  {| glob := globals0; heap := []; username := user;
     stdout := out; status := fun _ _ => 0; max_sleep := 9223372036;
     trace := [] |}.

(** A line break, and a listing made of lines. *)
Definition NL : string := String LF "".

Definition unlines (ls : list string) : string := String.concat NL ls.

(** What [remap_options] does for the keys [ks] of the mapping, without
    the store: how it ends and the dictionary it leaves. *)
Fixpoint remap_keys (mapping : odict string) (ks : list string)
  (d : odict value) : outcome unit * odict value :=
  match ks with
  | [] => (Ok tt, d)
  | k :: r =>
      let (v, d') := pop_none k d in
      if is_none v then remap_keys mapping r d'
      else
        match getitem k mapping with
        | Ok k' => remap_keys mapping r (odict.setitem k' v d')
        | Raise e => (Raise e, d')
        | OutOfFuel => (OutOfFuel, d')
        end
  end.

(** ** Further notions: events and remapped options *)

(** A computation that only appends events satisfying [P] to the trace. *)
Definition emits {A} (P : event -> Prop) (m : M A) : Prop :=
  forall st o st',
    m st = (o, st') ->
    exists t, trace st' = (trace st ++ t)%list /\ Forall P t.

Definition no_event : event -> Prop := fun _ => False.

(** The options that [batch] hands to [remap_options]. *)
Definition batch_opts (jobname logfile : value) (opts : odict value)
  : odict value :=
  let o1 := if truthy jobname
            then odict.update opts [("jobname", jobname)] else opts in
  if truthy logfile then odict.update o1 [("logfile", logfile)] else o1.

(** The events of [throttle]: polls of the listing command, waiting
    records and sleeps. *)
Definition throttle_event (self : batch) (sleep : Z) (e : event) : Prop :=
  e = EPopen (jobs_cmd self) \/ e = ESleep sleep \/
  exists n, e = ELog LInfo (str_int n ++ " jobs already in queue, waiting...").

(** * Properties *)

(** ** Ordered dictionaries *)

Section OdictFacts.
Variable V : Type.
Implicit Types (d items : odict V) (k : string) (v : V).

Lemma get_setitem_eq k v d : odict.get k (odict.setitem k v d) = Some v.
  Proof.
    induction d as [|[k' v'] r IH]; simpl.
    - now rewrite String.eqb_refl.
    - destruct (String.eqb k' k) eqn:E; simpl; rewrite E; auto.
  Qed.

Lemma get_setitem_neq k k' v d :
    k <> k' -> odict.get k' (odict.setitem k v d) = odict.get k' d.
  Proof.
    intros N. induction d as [|[k0 v0] r IH]; simpl.
    - destruct (String.eqb k k') eqn:E; auto.
      apply String.eqb_eq in E. contradiction.
    - destruct (String.eqb k0 k) eqn:E; simpl.
      + apply String.eqb_eq in E. subst k0.
        destruct (String.eqb k k') eqn:E'; auto.
        apply String.eqb_eq in E'. contradiction.
      + destruct (String.eqb k0 k'); auto.
  Qed.

Lemma get_setitem k k' v d :
    odict.get k' (odict.setitem k v d) =
    if String.eqb k k' then Some v else odict.get k' d.
  Proof.
    destruct (String.eqb k k') eqn:E.
    - apply String.eqb_eq in E. subst. apply get_setitem_eq.
    - apply String.eqb_neq in E. now apply get_setitem_neq.
  Qed.

Lemma get_None_keys k d : odict.get k d = None <-> ~ In k (odict.keys d).
  Proof.
    induction d as [|[k' v'] r IH]; simpl.
    - tauto.
    - destruct (String.eqb k' k) eqn:E.
      + apply String.eqb_eq in E. split; [discriminate | intros H; exfalso; auto].
      + apply String.eqb_neq in E. rewrite IH. tauto.
  Qed.

Lemma contains_keys k d : odict.contains k d = mem k (odict.keys d).
  Proof.
    unfold odict.contains, mem.
    induction d as [|[k' v'] r IH]; simpl; auto.
    rewrite (String.eqb_sym k k').
    destruct (String.eqb k' k); simpl; auto.
  Qed.

Lemma keys_setitem k v d :
    odict.keys (odict.setitem k v d) =
    if odict.contains k d then odict.keys d else (odict.keys d ++ [k])%list.
  Proof.
    unfold odict.contains.
    induction d as [|[k' v'] r IH]; simpl; auto.
    destruct (String.eqb k' k) eqn:E; simpl; auto.
    rewrite IH. destruct (odict.get k r); auto.
  Qed.

Lemma keys_update d items :
    odict.keys (odict.update d items) =
    (odict.keys d ++ new_keys (odict.keys d) (odict.keys items))%list.
  Proof.
    unfold odict.update. revert d.
    induction items as [|[k v] r IH]; intros d; simpl.
    - now rewrite app_nil_r.
    - rewrite IH, keys_setitem, contains_keys.
      destruct (mem k (odict.keys d)); auto.
      now rewrite <- app_assoc.
  Qed.

Lemma get_update k d items :
    NoDup (odict.keys items) ->
    odict.get k (odict.update d items) =
    match odict.get k items with
    | Some v => Some v
    | None => odict.get k d
    end.
  Proof.
    unfold odict.update. revert d.
    induction items as [|[k' v'] r IH]; intros d ND; simpl; auto.
    inversion ND as [|? ? NI ND']; subst.
    rewrite IH by assumption.
    destruct (String.eqb k' k) eqn:E.
    - apply String.eqb_eq in E. subst k'.
      apply get_None_keys in NI. rewrite NI. apply get_setitem_eq.
    - destruct (odict.get k r); auto.
      apply String.eqb_neq in E. now apply get_setitem_neq.
  Qed.

Lemma new_keys_nodup seen ks :
    NoDup ks -> new_keys seen ks = filter (fun k => negb (mem k seen)) ks.
  Proof.
    revert seen. induction ks as [|k r IH]; intros seen ND; simpl; auto.
    inversion ND as [|? ? NI ND']; subst.
    destruct (mem k seen) eqn:E; simpl; auto.
    f_equal. rewrite IH by assumption.
    apply filter_ext_in. intros a Ha. unfold mem. rewrite existsb_app. simpl.
    destruct (String.eqb a k) eqn:Ea.
    - apply String.eqb_eq in Ea. subst. contradiction.
    - now rewrite !orb_false_r.
  Qed.
End OdictFacts.

(** ** Running the monad *)

Section Run.
Context {A B : Type}.

Lemma bind_ret (a : A) (k : A -> M B) st : bind (ret a) k st = k a st.
  Proof. reflexivity. Qed.

Lemma bind_gets (f : state -> A) (k : A -> M B) st :
    bind (gets f) k st = k (f st) st.
  Proof. reflexivity. Qed.

Lemma bind_lift (o : outcome A) (k : A -> M B) st :
    bind (lift o) k st =
    match o with
    | Ok a => k a st
    | Raise e => (Raise e, st)
    | OutOfFuel => (OutOfFuel, st)
    end.
  Proof. reflexivity. Qed.

Lemma bind_assoc {C} (m : M A) (f : A -> M B) (g : B -> M C) st :
    bind (bind m f) g st = bind m (fun x => bind (f x) g) st.
  Proof. unfold bind. destruct (m st) as [[a|e|] st']; reflexivity. Qed.

Lemma bind_ok (m : M A) (k : A -> M B) st a st' :
    m st = (Ok a, st') -> bind m k st = k a st'.
  Proof. unfold bind. now intros ->. Qed.

Lemma bind_fail (m : M A) (k : A -> M B) st e st' :
    m st = (Raise e, st') -> bind m k st = (Raise e, st').
  Proof. unfold bind. now intros ->. Qed.

Lemma bind_fuel (m : M A) (k : A -> M B) st st' :
    m st = (OutOfFuel, st') -> bind m k st = (OutOfFuel, st').
  Proof. unfold bind. now intros ->. Qed.
End Run.

Ltac run_with H := rewrite (bind_ok _ _ _ _ _ H).

(** ** The store *)

Lemma nth_error_snoc {X} (h : list X) (x : X) :
  nth_error (h ++ [x]) (List.length h) = Some x.
Proof. rewrite nth_error_app2, Nat.sub_diag by lia. reflexivity. Qed.

Lemma replace_nth_snoc h d d' :
  replace_nth (List.length h) d' (h ++ [d]) = (h ++ [d'])%list.
Proof. induction h; simpl; congruence. Qed.

Lemma replace_nth_length n d h :
  List.length (replace_nth n d h) = List.length h.
Proof. revert n; induction h; intros [|n]; simpl; auto. Qed.

Lemma nth_error_replace_nth_neq n m d h :
  n <> m -> nth_error (replace_nth n d h) m = nth_error h m.
Proof.
  revert n m; induction h; intros [|n] [|m] N; simpl; auto;
    try contradiction.
Qed.

Lemma set_heap_same st : set_heap (heap st ++ []) st = st.
Proof. destruct st. unfold set_heap. simpl. now rewrite app_nil_r. Qed.

Lemma deref_ok r st d : lookup_ref r st = Some d -> deref r st = (Ok d, st).
Proof. unfold deref. now intros ->. Qed.

Lemma deref_invalid r st :
  lookup_ref r st = None -> deref r st = (Raise (InvalidRef r), st).
Proof. unfold deref. now intros ->. Qed.

Lemma alloc_eq d st :
  alloc d st = (Ok (Obj (List.length (heap st))), set_heap (heap st ++ [d]) st).
Proof. reflexivity. Qed.

Lemma lookup_fresh h d st :
  lookup_ref (Obj (List.length h)) (set_heap (h ++ [d]) st) = Some d.
Proof. simpl. apply nth_error_snoc. Qed.

Lemma modify_fresh h d f st :
  modify (Obj (List.length h)) f (set_heap (h ++ [d]) st)
  = (Ok tt, set_heap (h ++ [f d]) st).
Proof.
  unfold modify. run_with (deref_ok _ _ _ (lookup_fresh h d st)).
  unfold assign. simpl heap. rewrite length_app. simpl.
  replace (List.length h <? List.length h + 1)%nat with true
    by (symmetry; apply Nat.ltb_lt; lia).
  now rewrite replace_nth_snoc.
Qed.

Lemma lookup_defaults_ref c st :
  lookup_ref (defaults_ref c) st = Some (class_defaults c (glob st)).
Proof. destruct c; reflexivity. Qed.

(** ** Construction *)

Lemma Batch_init_eq c kwargs st :
  Batch_init c kwargs st =
  (Ok {| cls := c; user := username st;
         max_jobs := get_value "max_jobs" kwargs;
         default_opts := Obj (List.length (heap st));
         submit_cmd := "submit %(opts)s %(command)s";
         jobs_cmd := "jobs" |},
   set_heap (heap st ++ [instance_opts c kwargs (glob st)]) st).
Proof.
  unfold Batch_init. rewrite bind_gets. unfold pop_none.
  run_with (deref_ok _ _ _ (lookup_defaults_ref c st)).
  run_with (alloc_eq (class_defaults c (glob st)) st).
  run_with (modify_fresh (heap st) (class_defaults c (glob st))
              (fun d => odict.update d (odict.remove "max_jobs" kwargs)) st).
  reflexivity.
Qed.

(** The constructors never fail: they return [instance_of] and leave the
    state with one more dictionary, the class defaults updated with the
    keyword arguments. *)
Lemma new_eq c kwargs st :
  new c kwargs st =
  (Ok (instance_of c kwargs st),
   set_trace (trace st ++ init_warnings c)
     (set_heap (heap st ++ [instance_opts c kwargs (glob st)]) st)).
Proof.
  destruct c; unfold new, Local_init, LSF_init, Slurm_init, Condor_init;
    [ rewrite Batch_init_eq
    | run_with (Batch_init_eq Local kwargs st)
    | run_with (Batch_init_eq LSF kwargs st)
    | run_with (Batch_init_eq Slurm kwargs st)
    | run_with (Batch_init_eq Condor kwargs st) ];
    unfold set_trace, set_heap; simpl;
    rewrite ?app_nil_r; reflexivity.
Qed.

Lemma new_default_opts c kwargs st :
  lookup_ref (default_opts (instance_of c kwargs st))
    (set_trace (trace st ++ init_warnings c)
       (set_heap (heap st ++ [instance_opts c kwargs (glob st)]) st))
  = Some (instance_opts c kwargs (glob st)).
Proof. destruct c; simpl; apply nth_error_snoc. Qed.

(** ** Parsing the options *)

Lemma Slurm_parse_options_eq self opts st d :
  lookup_ref (default_opts self) st = Some d ->
  Slurm_parse_options self opts st =
  (Ok (serialize "--" (odict.update d opts)),
   set_heap (heap st ++ [odict.update d opts]) st).
Proof.
  intros H. unfold Slurm_parse_options.
  run_with (deref_ok _ _ _ H). run_with (alloc_eq d st).
  run_with (modify_fresh (heap st) d (fun o => odict.update o opts) st).
  run_with (deref_ok _ _ _ (lookup_fresh (heap st) (odict.update d opts) st)).
  reflexivity.
Qed.

Lemma runlimit_eq self q st :
  runlimit self q st = (qget (RUNLIMITS (glob st)) q, st).
Proof.
  unfold runlimit, qget, qdefault. rewrite bind_gets.
  destruct (qlookup q (RUNLIMITS (glob st))); [reflexivity|].
  rewrite bind_gets.
  destruct (qlookup VNone (RUNLIMITS (glob st))); reflexivity.
Qed.

Lemma mpiopts_eq self q st :
  mpiopts self q st = (qget (MPIOPTS (glob st)) q, st).
Proof.
  unfold mpiopts, qget, qdefault. rewrite bind_gets.
  destruct (qlookup q (MPIOPTS (glob st))); [reflexivity|].
  rewrite bind_gets.
  destruct (qlookup VNone (MPIOPTS (glob st))); reflexivity.
Qed.

Lemma get_value_setitem_neq k k' v d :
  k <> k' -> get_value k' (odict.setitem k v d) = get_value k' d.
Proof. intros N. unfold get_value. now rewrite get_setitem_neq. Qed.

(** The step [options['R'] += self.mpiopts(options.get('q'))], run on
    the dictionary that [parse_options] has just created. *)
Lemma LSF_placement self h o st :
  exists x,
    (if odict.contains "n" o then
       r <- (o <- deref (Obj (List.length h)) ;; lift (getitem "R" o)) ;;
       q <- (o <- deref (Obj (List.length h)) ;; ret (get_value "q" o)) ;;
       m <- mpiopts self q ;;
       r' <- lift (add_str r m) ;;
       modify (Obj (List.length h)) (odict.setitem "R" r')
     else ret tt) (set_heap (h ++ [o]) st)
    = (omap (fun _ => tt) (LSF_adjust_R (glob st) o), set_heap (h ++ [x]) st)
    /\ forall o', LSF_adjust_R (glob st) o = Ok o' -> x = o'.
Proof.
  unfold LSF_adjust_R.
  destruct (odict.contains "n" o).
  2:{ exists o. split; [reflexivity | now intros ? [= <-]]. }
  rewrite bind_assoc.
  run_with (deref_ok _ _ _ (lookup_fresh h o st)). rewrite bind_lift.
  destruct (getitem "R" o) as [r| |]; simpl;
    [| exists o; split; [reflexivity | discriminate] ..].
  rewrite bind_assoc.
  run_with (deref_ok _ _ _ (lookup_fresh h o st)). rewrite bind_ret.
  unfold bind at 1. rewrite mpiopts_eq. simpl glob.
  destruct (qget (MPIOPTS (glob st)) (get_value "q" o)) as [m| |]; simpl;
    [| exists o; split; [reflexivity | discriminate] ..].
  rewrite bind_lift.
  destruct (add_str r m) as [r'| |]; simpl;
    [| exists o; split; [reflexivity | discriminate] ..].
  rewrite modify_fresh. eexists. split; [reflexivity | now intros ? [= <-]].
Qed.

(** The steps that default ["W"] and serialize. *)
Lemma LSF_wallclock self h o st :
  exists x,
    (q <- (o <- deref (Obj (List.length h)) ;; ret (get_value "q" o)) ;;
     w <- runlimit self q ;;
     modify (Obj (List.length h)) (odict.setdefault "W" (VStr w)) ;;;
     o <- deref (Obj (List.length h)) ;;
     ret (serialize "-" o)) (set_heap (h ++ [o]) st)
    = (omap (serialize "-") (LSF_default_W (glob st) o),
       set_heap (h ++ [x]) st)
    /\ forall o', LSF_default_W (glob st) o = Ok o' -> x = o'.
Proof.
  unfold LSF_default_W.
  rewrite bind_assoc.
  run_with (deref_ok _ _ _ (lookup_fresh h o st)). rewrite bind_ret.
  unfold bind at 1. rewrite runlimit_eq. simpl glob.
  destruct (qget (RUNLIMITS (glob st)) (get_value "q" o)) as [w| |]; simpl;
    [| exists o; split; [reflexivity | discriminate] ..].
  run_with (modify_fresh h o (odict.setdefault "W" (VStr w)) st).
  run_with (deref_ok _ _ _
              (lookup_fresh h (odict.setdefault "W" (VStr w) o) st)).
  eexists. split; [reflexivity | now intros ? [= <-]].
Qed.

(** [LSF.parse_options] computes [LSF_options] on the instance defaults
    and leaves one more object, the final options when it succeeds. *)
Lemma LSF_parse_options_eq self opts st d :
  lookup_ref (default_opts self) st = Some d ->
  exists x,
    LSF_parse_options self opts st =
    (omap (serialize "-") (LSF_options (glob st) d opts),
     set_heap (heap st ++ [x]) st)
    /\ forall o, LSF_options (glob st) d opts = Ok o -> x = o.
Proof.
  intros H. unfold LSF_parse_options, LSF_options.
  run_with (deref_ok _ _ _ H). run_with (alloc_eq d st).
  run_with (modify_fresh (heap st) d (fun o => odict.update o opts) st).
  run_with (deref_ok _ _ _ (lookup_fresh (heap st) (odict.update d opts) st)).
  destruct (LSF_placement self (heap st) (odict.update d opts) st)
    as (x & E & Hx).
  unfold bind at 1. rewrite E.
  destruct (LSF_adjust_R (glob st) (odict.update d opts)) as [o'| |]; simpl;
    [| exists x; split; [reflexivity | discriminate] ..].
  rewrite (Hx o' eq_refl).
  apply LSF_wallclock.
Qed.

Lemma LSF_parse_options_invalid self opts st :
  lookup_ref (default_opts self) st = None ->
  LSF_parse_options self opts st = (Raise (InvalidRef (default_opts self)), st).
Proof.
  intros H. unfold LSF_parse_options.
  now rewrite (bind_fail _ _ _ _ _ (deref_invalid _ _ H)).
Qed.

Lemma Slurm_parse_options_invalid self opts st :
  lookup_ref (default_opts self) st = None ->
  Slurm_parse_options self opts st =
  (Raise (InvalidRef (default_opts self)), st).
Proof.
  intros H. unfold Slurm_parse_options.
  now rewrite (bind_fail _ _ _ _ _ (deref_invalid _ _ H)).
Qed.

(** ** What a computation leaves unchanged *)

Lemma frame_refl n st : frame n st st.
Proof. repeat split; auto. exists []. now rewrite app_nil_r. Qed.

Lemma frame_trans n st1 st2 st3 :
  frame n st1 st2 -> frame n st2 st3 -> frame n st1 st3.
Proof.
  intros (G & U & O & S & (t & T) & L & H) (G' & U' & O' & S' & (t' & T') & L' & H').
  repeat split; try congruence; try lia.
  - exists (t ++ t')%list. rewrite T', T. now rewrite app_assoc.
  - intros i Hi. rewrite H', H; auto.
Qed.

Section Keeps.
Context {A B : Type}.
Variable n : nat.

Lemma keeps_ret (a : A) (Q : A -> Prop) : Q a -> keeps n (ret a) Q.
  Proof. intros Ha st o st' _ [= <- <-]. split; [apply frame_refl|]. now intros ? [= <-]. Qed.

Lemma keeps_raise (e : exn) (Q : A -> Prop) : keeps n (raise e) Q.
  Proof. intros st o st' _ [= <- <-]. split; [apply frame_refl|]. discriminate. Qed.

Lemma keeps_gets (f : state -> A) : keeps n (gets f) any.
  Proof. intros st o st' _ [= <- <-]. split; [apply frame_refl|]. easy. Qed.

Lemma keeps_weaken (m : M A) (Q Q' : A -> Prop) :
    keeps n m Q -> (forall a, Q a -> Q' a) -> keeps n m Q'.
  Proof. intros H W st o st' L E. destruct (H st o st' L E) as [F HQ]. split; auto. Qed.

Lemma keeps_bind (m : M A) (k : A -> M B) (Q : A -> Prop) (Q' : B -> Prop) :
    keeps n m Q -> (forall a, Q a -> keeps n (k a) Q') -> keeps n (bind m k) Q'.
  Proof.
    intros Hm Hk st o st' L. unfold bind.
    destruct (m st) as [[a|e|] st1] eqn:E; intros E';
      destruct (Hm st _ st1 L E) as [F HQ].
    - assert (L1 : (n <= List.length (heap st1))%nat)
        by (destruct F as (_ & _ & _ & _ & _ & L1 & _); lia).
      destruct (Hk a (HQ a eq_refl) st1 o st' L1 E') as [F' HQ'].
      split; auto. eapply frame_trans; eauto.
    - injection E' as <- <-. split; auto. discriminate.
    - injection E' as <- <-. split; auto. discriminate.
  Qed.
End Keeps.

Lemma keeps_deref n r : keeps n (deref r) any.
Proof.
  intros st o st' _. unfold deref. destruct (lookup_ref r st); intros [= <- <-];
    (split; [apply frame_refl | easy]).
Qed.

Lemma keeps_emit n e : keeps n (emit e) any.
Proof.
  intros st o st' _ [= <- <-]. split; [|easy].
  repeat split; simpl; auto. now exists [e].
Qed.

Lemma keeps_lift {A} n (o : outcome A) : keeps n (lift o) any.
Proof. intros st o' st' _ [= <- <-]. split; [apply frame_refl | easy]. Qed.

Lemma keeps_alloc n d : keeps n (alloc d) (fresh_from n).
Proof.
  intros st o st' L [= <- <-]. split.
  - repeat split; simpl; auto.
    + exists []. now rewrite app_nil_r.
    + rewrite length_app. lia.
    + intros i Hi. apply nth_error_app1. lia.
  - intros a [= <-]. eexists; split; eauto.
Qed.

Lemma keeps_assign n r d : fresh_from n r -> keeps n (assign r d) any.
Proof.
  intros (m & -> & Hm) st o st' L. unfold assign.
  destruct (m <? List.length (heap st))%nat; intros [= <- <-];
    (split; [|easy]); [|apply frame_refl].
  repeat split; simpl; auto.
  - exists []. now rewrite app_nil_r.
  - rewrite replace_nth_length. lia.
  - intros i Hi. apply nth_error_replace_nth_neq. lia.
Qed.

Lemma keeps_modify n r f : fresh_from n r -> keeps n (modify r f) any.
Proof.
  intros F. unfold modify. eapply keeps_bind; [apply keeps_deref|].
  intros d _. now apply keeps_assign.
Qed.

Lemma keeps_for_each {X} n (l : list X) body :
  (forall x, keeps n (body x) any) -> keeps n (for_each l body) any.
Proof.
  intros H. induction l; simpl.
  - now apply keeps_ret.
  - eapply keeps_bind; [apply H|]. auto.
Qed.

Ltac keeps_step :=
  match goal with
  | |- keeps _ (bind (alloc _) _) _ => eapply keeps_bind; [apply keeps_alloc | intros ? ?]
  | |- keeps _ (bind _ _) _ => eapply keeps_bind; [| intros ? _]
  | |- keeps _ (ret _) _ => refine (keeps_ret _ _ any I)
  | |- keeps _ (raise _) _ => apply keeps_raise
  | |- keeps _ (gets _) _ => apply keeps_gets
  | |- keeps _ (deref _) _ => apply keeps_deref
  | |- keeps _ (emit _) _ => apply keeps_emit
  | |- keeps _ (modify _ _) _ => apply keeps_modify; assumption
  | |- keeps _ (assign _ _) _ => apply keeps_assign; assumption
  | |- keeps _ (lift _) _ => apply keeps_lift
  | |- keeps _ (if ?b then _ else _) _ => destruct b
  | |- keeps _ (match ?x with _ => _ end) _ => destruct x
  | |- keeps _ (let (_, _) := ?x in _) _ => destruct x
  end.

Lemma keeps_runlimit n self q : keeps n (runlimit self q) any.
Proof. unfold runlimit. repeat keeps_step. Qed.

Lemma keeps_mpiopts n self q : keeps n (mpiopts self q) any.
Proof. unfold mpiopts. repeat keeps_step. Qed.

Lemma keeps_LSF_parse_options n self opts : keeps n (LSF_parse_options self opts) any.
Proof.
  unfold LSF_parse_options.
  repeat first [apply keeps_runlimit | apply keeps_mpiopts | keeps_step].
Qed.

Lemma keeps_Slurm_parse_options n self opts : keeps n (Slurm_parse_options self opts) any.
Proof. unfold Slurm_parse_options. repeat keeps_step. Qed.

Lemma keeps_parse_options n self opts : keeps n (parse_options self opts) any.
Proof.
  unfold parse_options. destruct (cls self).
  - apply keeps_raise.
  - unfold Local_parse_options. repeat keeps_step.
  - apply keeps_LSF_parse_options.
  - apply keeps_Slurm_parse_options.
  - apply keeps_raise.
Qed.

Lemma keeps_remap_options n self r : fresh_from n r -> keeps n (remap_options self r) any.
Proof.
  intros F. unfold remap_options.
  eapply keeps_bind; [apply keeps_gets | intros mapping _].
  apply keeps_for_each. intros k. unfold pop_none.
  repeat keeps_step.
Qed.

Lemma keeps_batch_cmd n self command jobname logfile opts :
  keeps n (batch_cmd self command jobname logfile opts) any.
Proof.
  unfold batch_cmd.
  repeat first [apply keeps_remap_options; assumption | apply keeps_parse_options | keeps_step].
Qed.

Lemma keeps_popen_stdout n command : keeps n (popen_stdout command) any.
Proof.
  intros st o st' _ [= <- <-]. split; [|easy].
  repeat split; simpl; auto. now eexists.
Qed.

Lemma keeps_njobs n self : keeps n (njobs self) any.
Proof.
  unfold njobs, Local_njobs, Batch_njobs, jobs.
  destruct (cls self); repeat first [apply keeps_popen_stdout | keeps_step].
Qed.

Lemma keeps_throttle_loop n fuel self mj sleep :
  keeps n (throttle_loop fuel self mj sleep) any.
Proof.
  induction fuel; simpl.
  - intros st o st' _ [= <- <-]. split; [apply frame_refl | discriminate].
  - unfold info, sleep_for.
    repeat first [apply keeps_njobs | apply IHfuel | keeps_step].
Qed.

Lemma keeps_throttle n fuel self mj sleep :
  keeps n (throttle fuel self mj sleep) any.
Proof.
  unfold throttle.
  repeat first [apply keeps_throttle_loop | keeps_step].
Qed.

Lemma keeps_call n self command : keeps n (call self command) any.
Proof.
  unfold call, debug. eapply keeps_bind; [apply keeps_emit|]. intros _ _.
  intros st o st' _ [= <- <-]. split; [|easy].
  repeat split; simpl; auto. now eexists.
Qed.

Lemma keeps_submit n fuel self command jobname logfile opts :
  keeps n (submit fuel self command jobname logfile opts) any.
Proof.
  unfold submit.
  repeat first [apply keeps_batch_cmd | apply keeps_throttle | apply keeps_call | keeps_step].
Qed.

Lemma keeps_new n c kwargs : keeps n (new c kwargs) any.
Proof.
  intros st o st' L. rewrite new_eq. intros [= <- <-]. split; [|easy].
  repeat split; simpl; auto.
  - now eexists.
  - rewrite length_app. lia.
  - intros i Hi. apply nth_error_app1. lia.
Qed.

Lemma keeps_factory n str_lower queue kwargs :
  keeps n (factory str_lower queue kwargs) any.
Proof.
  unfold factory.
  repeat first [apply keeps_new | keeps_step].
Qed.

(** ** Polling and throttling *)



(** The text separator makes [split] fail on every listing that is not
    empty. *)
Lemma count_lines_nonempty out :
  out <> "" ->
  count_lines out =
  Raise (TypeError "a bytes-like object is required, not 'str'").
Proof. destruct out; [congruence | reflexivity]. Qed.

Lemma njobs_Local self st : cls self = Local -> njobs self st = (Ok 0, st).
Proof. intros H. unfold njobs. now rewrite H. Qed.

(** On the other backends [njobs] runs the listing command once and
    counts the lines of its output. *)
Lemma njobs_generic self st :
  cls self <> Local ->
  njobs self st =
  (count_lines (stdout st (count_events is_popen (trace st)) (jobs_cmd self)),
   set_trace (trace st ++ [EPopen (jobs_cmd self)]) st).
Proof.
  intros H. unfold njobs, Batch_njobs, jobs, popen_stdout, bind, lift.
  destruct (cls self); try congruence;
    destruct (count_lines _); reflexivity.
Qed.



(** On a Local backend the count is 0: below a positive ceiling. *)
Lemma throttle_loop_Local_pass fuel self m sleep st :
  cls self = Local -> 0 < m ->
  throttle_loop (S fuel) self (VInt m) sleep st = (Ok tt, st).
Proof.
  intros HL Hm. simpl. run_with (njobs_Local self st HL).
  rewrite bind_lift. simpl.
  now replace (0 <? m) with true by (symmetry; apply Z.ltb_lt; lia).
Qed.



(** On the other backends the first poll of a listing that is not empty
    ends the loop with [TypeError], whatever the ceiling is. *)
Lemma throttle_loop_type_error fuel self max_jobs' sleep st :
  cls self <> Local ->
  stdout st (count_events is_popen (trace st)) (jobs_cmd self) <> "" ->
  throttle_loop (S fuel) self max_jobs' sleep st =
  (Raise (TypeError "a bytes-like object is required, not 'str'"),
   set_trace (trace st ++ [EPopen (jobs_cmd self)]) st).
Proof.
  intros HL HO. simpl.
  apply bind_fail. rewrite njobs_generic by assumption.
  now rewrite count_lines_nonempty.
Qed.

(** A poll that does not raise yields 0. *)
Lemma njobs_cases self st :
  (exists st', njobs self st = (Ok 0, st')) \/
  (exists e st', njobs self st = (Raise e, st')).
Proof.
  destruct (cls self) eqn:E;
    try (left; eexists; apply njobs_Local; exact E);
    (rewrite njobs_generic by congruence;
     destruct (stdout st _ (jobs_cmd self)) eqn:O;
     [left; eexists; reflexivity
     | right; eexists; eexists; rewrite count_lines_nonempty by discriminate;
       reflexivity]).
Qed.

(** The loop returns only for a positive integer ceiling. *)
Lemma throttle_loop_returns fuel : forall self v sleep st st',
  throttle_loop fuel self v sleep st = (Ok tt, st') ->
  exists m, v = VInt m /\ 0 < m.
Proof.
  induction fuel as [|fuel IH]; intros self v sleep st st' E;
    [discriminate|].
  simpl in E.
  destruct (njobs_cases self st) as [(s1 & H)|(e & s1 & H)].
  - rewrite (bind_ok _ _ _ _ _ H), bind_lift in E.
    destruct v as [|m|a]; simpl in E; try discriminate.
    destruct (0 <? m) eqn:L.
    + exists m. split; auto. now apply Z.ltb_lt.
    + unfold info in E. unfold bind at 1 in E. unfold emit at 1 in E.
      unfold bind at 1 in E.
      destruct (sleep_for sleep _) as [[[]| |] s2] eqn:S; try discriminate.
      eapply IH; eauto.
  - rewrite (bind_fail _ _ _ _ _ H) in E. discriminate.
Qed.

Lemma throttle_none fuel self sleep st :
  max_jobs self = VNone -> throttle fuel self VNone sleep st = (Ok tt, st).
Proof. unfold throttle. simpl. now intros ->. Qed.

Lemma throttle_eq fuel self arg sleep st :
  throttle fuel self arg sleep st =
  if is_none (ceiling self arg) then (Ok tt, st)
  else throttle_loop fuel self (ceiling self arg) sleep st.
Proof. unfold throttle, ceiling. destruct (is_none _); reflexivity. Qed.

(** ** Submission *)

Lemma call_eq self command st :
  call self command st =
  (Ok (status st (count_events is_call (trace st ++ [ELog LDebug command]))
         command),
   set_trace (trace st ++ [ELog LDebug command; ECall command]) st).
Proof.
  unfold call, debug, emit, bind, set_trace. simpl.
  now rewrite <- app_assoc.
Qed.

(** [submit] when the command line is built and the throttle lets go. *)
Lemma submit_ok fuel self command jobname logfile opts st cmd st1 st2 :
  batch_cmd self command jobname logfile opts st = (Ok cmd, st1) ->
  throttle fuel self VNone 60 st1 = (Ok tt, st2) ->
  submit fuel self command jobname logfile opts st =
  (Ok cmd, set_trace (trace st2 ++ [ELog LDebug cmd; ECall cmd]) st2).
Proof.
  intros HB HT. unfold submit. run_with HB. run_with HT.
  run_with (call_eq self cmd st2). reflexivity.
Qed.

(** [submit] when the throttle raises. *)
Lemma submit_throttle_raises fuel self command jobname logfile opts st cmd
  st1 e st2 :
  batch_cmd self command jobname logfile opts st = (Ok cmd, st1) ->
  throttle fuel self VNone 60 st1 = (Raise e, st2) ->
  submit fuel self command jobname logfile opts st = (Raise e, st2).
Proof.
  intros HB HT. unfold submit. run_with HB.
  now rewrite (bind_fail _ _ _ _ _ HT).
Qed.

(** ** Merging the layers of options *)

Lemma mem_In k l : mem k l = true <-> In k l.
Proof.
  unfold mem. rewrite existsb_exists. split.
  - intros (x & Hx & E). apply String.eqb_eq in E. now subst.
  - intros H. exists k. split; auto. apply String.eqb_refl.
Qed.

Lemma distinct_NoDup l : distinct l = true -> NoDup l.
Proof.
  induction l as [|k r IH]; simpl; intros H; constructor;
    apply andb_prop in H; destruct H as [H1 H2]; auto.
  intros HI. apply mem_In in HI. rewrite HI in H1. discriminate.
Qed.

Lemma keys_remove_incl {V} k (d : odict V) x :
  In x (odict.keys (odict.remove k d)) -> In x (odict.keys d).
Proof.
  induction d as [|[k' v] r IH]; simpl; auto.
  destruct (String.eqb k' k); simpl; intuition.
Qed.

Lemma NoDup_keys_remove {V} k (d : odict V) :
  NoDup (odict.keys d) -> NoDup (odict.keys (odict.remove k d)).
Proof.
  induction d as [|[k' v] r IH]; simpl; auto.
  intros H. inversion H; subst.
  destruct (String.eqb k' k); simpl; auto.
  constructor; auto. intros HI. now apply keys_remove_incl in HI.
Qed.

Lemma keys_update_nodup {V} (d items : odict V) :
  NoDup (odict.keys items) ->
  odict.keys (odict.update d items) =
  (odict.keys d ++
   filter (fun k => negb (odict.contains k d)) (odict.keys items))%list.
Proof.
  intros H. rewrite keys_update, new_keys_nodup by assumption.
  f_equal. apply filter_ext. intros k. now rewrite contains_keys.
Qed.

Lemma get_setdefault {V} k k' (v : V) d :
  odict.get k' (odict.setdefault k v d) =
  match odict.get k' d with
  | Some x => Some x
  | None => if String.eqb k k' then Some v else None
  end.
Proof.
  unfold odict.setdefault.
  destruct (odict.get k d) eqn:E.
  - destruct (odict.get k' d) eqn:E'; auto.
    destruct (String.eqb k k') eqn:Ek; auto.
    apply String.eqb_eq in Ek. congruence.
  - induction d as [|[k0 v0] r IH]; simpl in *.
    + now rewrite String.eqb_refl || destruct (String.eqb k k').
    + destruct (String.eqb k0 k) eqn:E0; [discriminate|].
      destruct (String.eqb k0 k'); auto.
Qed.

Lemma keys_setdefault {V} k (v : V) d :
  odict.keys (odict.setdefault k v d) =
  (odict.keys d ++ if odict.contains k d then [] else [k])%list.
Proof.
  unfold odict.setdefault, odict.contains.
  destruct (odict.get k d).
  - now rewrite app_nil_r.
  - unfold odict.keys. now rewrite map_app.
Qed.

Lemma keys_setitem_present {V} k (v : V) d :
  odict.contains k d = true ->
  odict.keys (odict.setitem k v d) = odict.keys d.
Proof. intros H. now rewrite keys_setitem, H. Qed.

Lemma contains_setitem_neq {V} k k' (v : V) d :
  k <> k' -> odict.contains k' (odict.setitem k v d) = odict.contains k' d.
Proof. intros N. unfold odict.contains. now rewrite get_setitem_neq. Qed.

(** What [LSF_options] changes in the merged options when it succeeds:
    only ["R"], by appending the placement string when ["n"] is present,
    and ["W"], added last when absent. *)
Lemma LSF_options_spec g d opts final :
  LSF_options g d opts = Ok final ->
  let merged := odict.update d opts in
  odict.keys final =
    (odict.keys merged ++ if odict.contains "W" merged then [] else ["W"])%list
  /\ (forall k, k <> "R" -> k <> "W" -> odict.get k final = odict.get k merged)
  /\ (forall v, odict.get "W" merged = Some v -> odict.get "W" final = Some v)
  /\ (odict.get "W" merged = None ->
      exists w, qget (RUNLIMITS g) (get_value "q" merged) = Ok w /\
                odict.get "W" final = Some (VStr w))
  /\ (odict.contains "n" merged = false ->
      odict.get "R" final = odict.get "R" merged)
  /\ (odict.contains "n" merged = true ->
      exists a m, odict.get "R" merged = Some (VStr a) /\
                  qget (MPIOPTS g) (get_value "q" merged) = Ok m /\
                  odict.get "R" final = Some (VStr (a ++ m))).
Proof.
  intros H merged.
  unfold LSF_options, LSF_adjust_R, LSF_default_W in H.
  fold merged in H.
  destruct (odict.contains "n" merged) eqn:Hn.
  - unfold getitem in H.
    destruct (odict.get "R" merged) as [r|] eqn:HR; [|discriminate].
    simpl in H.
    destruct (qget (MPIOPTS g) (get_value "q" merged)) as [m| |] eqn:Hm;
      try discriminate.
    simpl in H. destruct r as [|z|a]; try discriminate. simpl in H.
    rewrite get_value_setitem_neq in H by discriminate.
    destruct (qget (RUNLIMITS g) (get_value "q" merged)) as [w| |] eqn:Hw;
      try discriminate.
    injection H as <-.
    assert (HcR : odict.contains "R" merged = true)
      by (unfold odict.contains; now rewrite HR).
    repeat split.
    + rewrite keys_setdefault, keys_setitem_present by assumption.
      now rewrite contains_setitem_neq by discriminate.
    + intros k NR NW. rewrite get_setdefault, get_setitem_neq by congruence.
      destruct (odict.get k merged); auto.
      destruct (String.eqb "W" k) eqn:E; auto.
      apply String.eqb_eq in E. congruence.
    + intros v Hv. rewrite get_setdefault, get_setitem_neq by discriminate.
      now rewrite Hv.
    + intros Hv. exists w. split; auto.
      rewrite get_setdefault, get_setitem_neq by discriminate.
      now rewrite Hv.
    + discriminate.
    + intros _. exists a, m. repeat split; auto.
      rewrite get_setdefault, get_setitem_eq. reflexivity.
  - simpl in H.
    destruct (qget (RUNLIMITS g) (get_value "q" merged)) as [w| |] eqn:Hw;
      try discriminate.
    injection H as <-.
    repeat split.
    + apply keys_setdefault.
    + intros k NR NW. rewrite get_setdefault.
      destruct (odict.get k merged); auto.
      destruct (String.eqb "W" k) eqn:E; auto.
      apply String.eqb_eq in E. congruence.
    + intros v Hv. rewrite get_setdefault. now rewrite Hv.
    + intros Hv. exists w. split; auto. rewrite get_setdefault. now rewrite Hv.
    + intros _. rewrite get_setdefault.
      destruct (odict.get "R" merged); auto.
    + discriminate.
Qed.

(** [LSF_options] succeeds when the tables have their default entries
    and the resource selector, if it has to be extended, is a string. *)
Lemma LSF_options_ok g d opts :
  qlookup VNone (MPIOPTS g) <> None ->
  qlookup VNone (RUNLIMITS g) <> None ->
  (odict.contains "n" (odict.update d opts) = false \/
   exists a, odict.get "R" (odict.update d opts) = Some (VStr a)) ->
  exists final, LSF_options g d opts = Ok final.
Proof.
  intros HM HR H. unfold LSF_options, LSF_adjust_R, LSF_default_W.
  assert (QM : forall q, exists m, qget (MPIOPTS g) q = Ok m).
  { intros q. unfold qget, qdefault. destruct (qlookup q (MPIOPTS g)); eauto.
    destruct (qlookup VNone (MPIOPTS g)); eauto. congruence. }
  assert (QR : forall q, exists w, qget (RUNLIMITS g) q = Ok w).
  { intros q. unfold qget, qdefault. destruct (qlookup q (RUNLIMITS g)); eauto.
    destruct (qlookup VNone (RUNLIMITS g)); eauto. congruence. }
  destruct (odict.contains "n" (odict.update d opts)) eqn:Hn.
  - destruct H as [H|[a Ha]]; [discriminate|].
    unfold getitem. rewrite Ha. simpl.
    destruct (QM (get_value "q" (odict.update d opts))) as [m ->]. simpl.
    destruct (QR (get_value "q"
                    (odict.setitem "R" (VStr (a ++ m)) (odict.update d opts))))
      as [w ->].
    simpl. eauto.
  - simpl. destruct (QR (get_value "q" (odict.update d opts))) as [w ->].
    simpl. eauto.
Qed.

Lemma get_remove_neq {V} k k' (d : odict V) :
  k <> k' -> odict.get k' (odict.remove k d) = odict.get k' d.
Proof.
  intros N. induction d as [|[k0 v0] r IH]; simpl; auto.
  destruct (String.eqb k0 k) eqn:E; simpl.
  - apply String.eqb_eq in E. subst k0.
    destruct (String.eqb k k') eqn:E'; auto.
    apply String.eqb_eq in E'. contradiction.
  - destruct (String.eqb k0 k'); auto.
Qed.


(** A resource selector that is not a string cannot be extended: the
    call raises [TypeError]. *)
Lemma LSF_options_type_error g d opts r m :
  odict.contains "n" (odict.update d opts) = true ->
  odict.get "R" (odict.update d opts) = Some r ->
  (forall a, r <> VStr a) ->
  qget (MPIOPTS g) (get_value "q" (odict.update d opts)) = Ok m ->
  exists msg, LSF_options g d opts = Raise (TypeError msg).
Proof.
  intros Hn HR Hr Hm. unfold LSF_options, LSF_adjust_R, getitem.
  rewrite Hn, HR. simpl. rewrite Hm. simpl.
  destruct r as [|z|a]; simpl; eauto. now destruct (Hr a).
Qed.
(** ** What [parse_options] returns and the dictionary it builds *)

Lemma serialize_flags p d : serialize p d = String.concat "" (map (flag p) d).
Proof. reflexivity. Qed.

(** [LSF.parse_options] adds one object to the store, the dictionary it
    has built, and returns the flags of that dictionary. *)
Lemma LSF_parse_options_built self opts st d final :
  lookup_ref (default_opts self) st = Some d ->
  LSF_options (glob st) d opts = Ok final ->
  LSF_parse_options self opts st =
  (Ok (String.concat "" (map (flag "-") final)),
   set_heap (heap st ++ [final]) st).
Proof.
  intros H HF.
  destruct (LSF_parse_options_eq self opts st d H) as (x & E & Hx).
  rewrite E, HF, (Hx final HF). simpl omap. now rewrite serialize_flags.
Qed.

Lemma Slurm_parse_options_built self opts st d :
  lookup_ref (default_opts self) st = Some d ->
  Slurm_parse_options self opts st =
  (Ok (String.concat "" (map (flag "--") (odict.update d opts))),
   set_heap (heap st ++ [odict.update d opts]) st).
Proof.
  intros H. now rewrite (Slurm_parse_options_eq _ _ _ _ H), serialize_flags.
Qed.

(** An LSF backend built in a state with the tables of the module: its
    defaults, what its [parse_options] returns and what it builds. *)
Lemma LSF_new_parse_built kwargs opts st final :
  glob st = globals0 ->
  LSF_options globals0 (instance_opts LSF kwargs globals0) opts = Ok final ->
  exists self st1,
    new LSF kwargs st = (Ok self, st1) /\
    lookup_ref (default_opts self) st1 =
      Some (instance_opts LSF kwargs globals0) /\
    parse_options self opts st1 =
      (Ok (String.concat "" (map (flag "-") final)),
       set_heap (heap st1 ++ [final]) st1).
Proof.
  intros G HF.
  pose proof (new_default_opts LSF kwargs st) as HD.
  pose proof (new_eq LSF kwargs st) as HN.
  remember (set_trace (trace st ++ init_warnings LSF)
              (set_heap (heap st ++ [instance_opts LSF kwargs (glob st)]) st))
    as st1 eqn:Hst1.
  assert (G1 : glob st1 = globals0) by (now subst st1).
  clear Hst1. rewrite G in HD.
  exists (instance_of LSF kwargs st), st1.
  split; [exact HN|]. split; [exact HD|].
  unfold parse_options. change (cls (instance_of LSF kwargs st)) with LSF.
  cbv iota. apply (LSF_parse_options_built _ _ _ _ _ HD). now rewrite G1.
Qed.

(** ** The Local backend *)

Lemma append_empty s : s ++ "" = s.
Proof. induction s; simpl; congruence. Qed.

Lemma pct_format_logfile o v :
  odict.get "logfile" o = Some v ->
  pct_format " 2>&1 | tee %(logfile)s" o = Ok (" 2>&1 | tee " ++ str v).
Proof.
  intros H. unfold pct_format. simpl. rewrite H, append_empty. reflexivity.
Qed.

Lemma pct_format_local command s :
  pct_format "%(command)s %(opts)s" [("opts", VStr s); ("command", VStr command)]
  = Ok (command ++ " " ++ s).
Proof.
  unfold pct_format. simpl. now rewrite append_empty.
Qed.

(** The command line of a Local backend when a log file is given: the
    command, the blank of the template and the clause that pipes the
    output to [tee]; no other option takes part. *)
Lemma Local_batch_cmd self command jobname logfile opts st :
  cls self = Local ->
  submit_cmd self = "%(command)s %(opts)s" ->
  Batch_mapping (glob st) = [] ->
  truthy logfile = true ->
  exists o,
    batch_cmd self command jobname logfile opts st =
    (Ok (command ++ " " ++ " 2>&1 | tee " ++ str logfile),
     set_heap (heap st ++ [o]) st).
Proof.
  intros HC HS HM HL. unfold batch_cmd.
  run_with (alloc_eq opts st).
  assert (J : exists o1,
    (if truthy jobname
     then modify (Obj (List.length (heap st)))
            (fun o => odict.update o [("jobname", jobname)])
     else ret tt) (set_heap (heap st ++ [opts]) st)
    = (Ok tt, set_heap (heap st ++ [o1]) st)).
  { destruct (truthy jobname); eexists;
      [apply modify_fresh | reflexivity]. }
  destruct J as [o1 J]. run_with J. rewrite HL.
  run_with (modify_fresh (heap st) o1
              (fun o => odict.update o [("logfile", logfile)]) st).
  unfold remap_options. rewrite bind_assoc, bind_gets. simpl glob.
  rewrite HC. simpl mapping_of. rewrite HM. simpl for_each. rewrite bind_ret.
  run_with (deref_ok _ _ _
              (lookup_fresh (heap st)
                 (odict.update o1 [("logfile", logfile)]) st)).
  assert (G : odict.get "logfile" (odict.update o1 [("logfile", logfile)])
              = Some logfile) by apply get_setitem_eq.
  unfold parse_options. rewrite HC. unfold Local_parse_options, get_value.
  rewrite G, HL, bind_lift, (pct_format_logfile _ _ G), HS.
  unfold lift. rewrite pct_format_local. eexists. reflexivity.
Qed.

(** ** The factory *)

(** With the tables of the module, [factory] constructs the backend of
    the family of the name; for the Condor family it constructs the
    backend and raises, for no family it raises at once. *)
Lemma factory_eq str_lower queue kwargs st :
  glob st = globals0 ->
  factory str_lower queue kwargs st =
  let name := factory_name str_lower queue in
  let kw := factory_kwargs globals0 name kwargs in
  match family name with
  | Some Condor =>
      (Raise (Exception_ "Condor cluster not implemented"),
       snd (new Condor kw st))
  | Some c => new c kw st
  | None => (Raise (TypeError ("Unexpected queue name: " ++ name)), st)
  end.
Proof.
  intros G. unfold factory, family, factory_kwargs, all_queues.
  fold (factory_name str_lower queue).
  remember (mem (factory_name str_lower queue)) as isin eqn:Hisin.
  clear Hisin.
  rewrite bind_gets, G.
  repeat (rewrite ?bind_assoc, ?bind_gets, ?G, ?bind_lift, ?bind_ret; simpl).
  change ["local"] with (family_names "local").
  destruct (isin (family_names "local")); [reflexivity|].
  repeat (rewrite ?bind_assoc, ?bind_gets, ?G, ?bind_lift, ?bind_ret; simpl).
  match goal with |- context [isin ?l] =>
    change l with (family_names "lsf") end.
  destruct (isin (family_names "lsf")); [reflexivity|].
  repeat (rewrite ?bind_assoc, ?bind_gets, ?G, ?bind_lift, ?bind_ret; simpl).
  match goal with |- context [isin ?l] =>
    change l with (family_names "slurm") end.
  destruct (isin (family_names "slurm")); [reflexivity|].
  repeat (rewrite ?bind_assoc, ?bind_gets, ?G, ?bind_lift, ?bind_ret; simpl).
  match goal with |- context [isin ?l] =>
    change l with (family_names "condor") end.
  destruct (isin (family_names "condor")); [|reflexivity].
  change Condor_init with (new Condor).
  unfold bind. rewrite new_eq. reflexivity.
Qed.

Lemma family_not_Batch name : family name <> Some Batch.
Proof.
  unfold family.
  repeat match goal with |- context [if ?b then _ else _] => destruct b end;
    discriminate.
Qed.

(** For a name of the Local, LSF or Slurm family the factory returns the
    instance that the constructor builds from the keyword arguments,
    completed with the queue when the name is a queue name. *)
Lemma factory_ok str_lower queue kwargs st c :
  glob st = globals0 ->
  family (factory_name str_lower queue) = Some c -> c <> Condor ->
  let kw := factory_kwargs globals0 (factory_name str_lower queue) kwargs in
  exists st1,
    factory str_lower queue kwargs st = (Ok (instance_of c kw st), st1) /\
    glob st1 = globals0 /\
    lookup_ref (default_opts (instance_of c kw st)) st1 =
    Some (instance_opts c kw globals0).
Proof.
  intros G HF HC kw. rewrite (factory_eq _ _ _ _ G). cbv zeta. rewrite HF.
  fold kw.
  pose proof (new_default_opts c kw st) as HD. rewrite G in HD.
  destruct c; try congruence; rewrite new_eq; eexists;
    (split; [rewrite G; reflexivity | split; [exact G | exact HD]]).
Qed.

Lemma NoDup_keys_setdefault {V} k (v : V) d :
  NoDup (odict.keys d) -> NoDup (odict.keys (odict.setdefault k v d)).
Proof.
  intros H. rewrite keys_setdefault. unfold odict.contains.
  destruct (odict.get k d) eqn:E.
  - now rewrite app_nil_r.
  - apply get_None_keys in E.
    apply NoDup_app; repeat split; auto.
    + constructor; [intros [] | constructor].
    + intros x Hx [<-|[]]. contradiction.
Qed.

(** The queue that the factory adds reaches the defaults of the
    instance. *)
Lemma instance_opts_q c kwargs g v :
  NoDup (odict.keys kwargs) -> odict.get "q" kwargs = None ->
  odict.get "q" (instance_opts c (odict.setdefault "q" v kwargs) g) = Some v.
Proof.
  intros ND HQ. unfold instance_opts.
  rewrite get_update
    by (apply NoDup_keys_remove; now apply NoDup_keys_setdefault).
  rewrite get_remove_neq by discriminate.
  rewrite get_setdefault, HQ. reflexivity.
Qed.

(** ** Outcomes as functions of the inputs *)

Lemma lookup_ref_extend r st l d :
  lookup_ref r st = Some d ->
  lookup_ref r (set_heap (heap st ++ l) st) = Some d.
Proof.
  destruct r as [c|n]; simpl; auto.
  intros H. rewrite nth_error_app1; auto.
  apply nth_error_Some. congruence.
Qed.

(** What existed before a computation that keeps the frame of the whole
    heap is still there, unchanged. *)
Lemma frame_lookup st st' r d :
  frame (List.length (heap st)) st st' ->
  lookup_ref r st = Some d -> lookup_ref r st' = Some d.
Proof.
  intros (G & _ & _ & _ & _ & _ & H) L.
  destruct r as [c|n]; simpl in *.
  - now rewrite G.
  - rewrite H; auto. apply nth_error_Some. congruence.
Qed.

Lemma remap_options_fresh self h st : forall d,
  remap_options self (Obj (List.length h)) (set_heap (h ++ [d]) st) =
  (fst (remap_keys (mapping_of (cls self) (glob st))
          (odict.keys (mapping_of (cls self) (glob st))) d),
   set_heap
     (h ++ [snd (remap_keys (mapping_of (cls self) (glob st))
                   (odict.keys (mapping_of (cls self) (glob st))) d)]) st).
Proof.
  unfold remap_options. intros d. rewrite bind_gets. simpl glob.
  generalize (odict.keys (mapping_of (cls self) (glob st))) as ks.
  intros ks. revert d.
  induction ks as [|k ks IH]; intros d; [reflexivity|].
  simpl for_each. simpl remap_keys.
  rewrite bind_assoc.
  run_with (deref_ok _ _ _ (lookup_fresh h d st)).
  unfold pop_none. rewrite bind_assoc.
  assert (A : assign (Obj (List.length h)) (odict.remove k d)
                (set_heap (h ++ [d]) st)
              = (Ok tt, set_heap (h ++ [odict.remove k d]) st)).
  { unfold assign. simpl heap. rewrite length_app. simpl.
    replace (List.length h <? List.length h + 1)%nat with true
      by (symmetry; apply Nat.ltb_lt; lia).
    now rewrite replace_nth_snoc. }
  run_with A.
  destruct (is_none (get_value k d)).
  - rewrite bind_ret. apply IH.
  - rewrite !bind_assoc, bind_gets. simpl glob. rewrite bind_assoc, bind_lift.
    destruct (getitem k (mapping_of (cls self) (glob st))) as [k'| |];
      try reflexivity.
    run_with (modify_fresh h (odict.remove k d)
                (odict.setitem k' (get_value k d)) st).
    apply IH.
Qed.

(** The outcome of [parse_options] is a function of the class, of the
    tables, of the instance defaults and of the options of the call; the
    state it leaves is the one it found with at most one more object. *)
Lemma parse_options_fun self opts g d :
  exists o, forall st,
    glob st = g -> lookup_ref (default_opts self) st = Some d ->
    exists l, parse_options self opts st = (o, set_heap (heap st ++ l) st).
Proof.
  unfold parse_options. destruct (cls self).
  - eexists. intros st _ _. exists []. now rewrite set_heap_same.
  - unfold Local_parse_options.
    destruct (truthy (get_value "logfile" opts));
      eexists; intros st _ _; exists []; now rewrite set_heap_same.
  - exists (omap (serialize "-") (LSF_options g d opts)). intros st <- L.
    destruct (LSF_parse_options_eq self opts st d L) as (x & E & _).
    exists [x]. exact E.
  - eexists. intros st _ L. eexists.
    now rewrite (Slurm_parse_options_eq self opts st d L).
  - eexists. intros st _ _. exists []. now rewrite set_heap_same.
Qed.

(** The same for [batch]. *)
Lemma batch_cmd_fun self command jobname logfile opts g d :
  exists o, forall st,
    glob st = g -> lookup_ref (default_opts self) st = Some d ->
    exists l,
      batch_cmd self command jobname logfile opts st =
      (o, set_heap (heap st ++ l) st).
Proof.
  pose (o1 := if truthy jobname
              then odict.update opts [("jobname", jobname)] else opts).
  pose (o2 := if truthy logfile
              then odict.update o1 [("logfile", logfile)] else o1).
  pose (m := mapping_of (cls self) g).
  destruct (remap_keys m (odict.keys m) o2) as [r o3] eqn:ER.
  destruct (parse_options_fun self o3 g d) as [po HP].
  assert (Start : forall st,
    exists k,
      batch_cmd self command jobname logfile opts st =
      k (set_heap (heap st ++ [o2]) st) /\
      k = (remap_options self (Obj (List.length (heap st))) ;;;
           o <- deref (Obj (List.length (heap st))) ;;
           s <- parse_options self o ;;
           lift (pct_format (submit_cmd self)
                   [("opts", VStr s); ("command", VStr command)]))).
  { intros st. eexists. split; [|reflexivity].
    unfold batch_cmd. run_with (alloc_eq opts st).
    assert (J : (if truthy jobname
                 then modify (Obj (List.length (heap st)))
                        (fun o => odict.update o [("jobname", jobname)])
                 else ret tt) (set_heap (heap st ++ [opts]) st)
                = (Ok tt, set_heap (heap st ++ [o1]) st)).
    { unfold o1. destruct (truthy jobname); [|reflexivity].
      apply (modify_fresh (heap st) opts
               (fun o => odict.update o [("jobname", jobname)])). }
    run_with J.
    assert (L : (if truthy logfile
                 then modify (Obj (List.length (heap st)))
                        (fun o => odict.update o [("logfile", logfile)])
                 else ret tt) (set_heap (heap st ++ [o1]) st)
                = (Ok tt, set_heap (heap st ++ [o2]) st)).
    { unfold o2. destruct (truthy logfile); [|reflexivity].
      apply (modify_fresh (heap st) o1
               (fun o => odict.update o [("logfile", logfile)])). }
    run_with L. reflexivity. }
  destruct r as [[]|e|].
  - destruct po as [s|e|].
    + exists (pct_format (submit_cmd self)
                [("opts", VStr s); ("command", VStr command)]).
      intros st G L. destruct (Start st) as (k & -> & ->).
      unfold bind at 1. rewrite remap_options_fresh. simpl glob.
      rewrite G. fold m. rewrite ER. simpl fst. simpl snd.
      run_with (deref_ok _ _ _ (lookup_fresh (heap st) o3 st)).
      destruct (HP (set_heap (heap st ++ [o3]) st) G
                  (lookup_ref_extend _ st [o3] d L)) as [l E].
      run_with E. simpl heap. rewrite <- app_assoc.
      eexists. reflexivity.
    + exists (Raise e). intros st G L. destruct (Start st) as (k & -> & ->).
      unfold bind at 1. rewrite remap_options_fresh. simpl glob.
      rewrite G. fold m. rewrite ER. simpl fst. simpl snd.
      run_with (deref_ok _ _ _ (lookup_fresh (heap st) o3 st)).
      destruct (HP (set_heap (heap st ++ [o3]) st) G
                  (lookup_ref_extend _ st [o3] d L)) as [l E].
      rewrite (bind_fail _ _ _ _ _ E). simpl heap. rewrite <- app_assoc.
      eexists. reflexivity.
    + exists OutOfFuel. intros st G L. destruct (Start st) as (k & -> & ->).
      unfold bind at 1. rewrite remap_options_fresh. simpl glob.
      rewrite G. fold m. rewrite ER. simpl fst. simpl snd.
      run_with (deref_ok _ _ _ (lookup_fresh (heap st) o3 st)).
      destruct (HP (set_heap (heap st ++ [o3]) st) G
                  (lookup_ref_extend _ st [o3] d L)) as [l E].
      rewrite (bind_fuel _ _ _ _ E). simpl heap. rewrite <- app_assoc.
      eexists. reflexivity.
  - exists (Raise e). intros st G L. destruct (Start st) as (k & -> & ->).
    unfold bind at 1. rewrite remap_options_fresh. simpl glob.
    rewrite G. fold m. rewrite ER. simpl fst. simpl snd.
    eexists. reflexivity.
  - exists OutOfFuel. intros st G L. destruct (Start st) as (k & -> & ->).
    unfold bind at 1. rewrite remap_options_fresh. simpl glob.
    rewrite G. fold m. rewrite ER. simpl fst. simpl snd.
    eexists. reflexivity.
Qed.

(** * The properties of the specification *)

Lemma cls_instance_of c kwargs st : cls (instance_of c kwargs st) = c.
Proof. destruct c; reflexivity. Qed.

(** C1. For the backends that merge options in [parse_options] (LSF and
    Slurm) the options are layered: for every key the value of the call
    overrides the value given at construction, which overrides the class
    default.  Every key keeps the place of its first insertion: the keys
    of the class defaults first, in the order of the table, then the new
    keys of the construction and then the new keys of the call, each in
    the order of arrival (the ceiling [max_jobs] is not an option).
    On Slurm the dictionary that [parse_options] builds, the one object
    that the call adds to the store, is exactly this merged dictionary,
    and the string returned is made of one flag [--key value ] for each
    of its entries, in order.  On LSF the dictionary built is the merged
    one after the two adjustments, which leave every other key alone:
    the placement string is appended to the layered value of ["R"] when
    a processor count is present, and ["W"] is added last when no layer
    gives it; the string returned is made of one flag [-key value ] for
    each of its entries, in order. *)
Theorem C1_option_layers (c : klass) (kwargs opts : odict value) (st : state) :
  glob st = globals0 ->
  c = LSF \/ c = Slurm ->
  distinct (odict.keys kwargs) = true ->
  distinct (odict.keys opts) = true ->
  let defaults := class_defaults c globals0 in
  let inst := odict.remove "max_jobs" kwargs in
  let merged := odict.update (odict.update defaults inst) opts in
  (forall k, odict.get k merged = layered k defaults inst opts) /\
  odict.keys merged =
    (odict.keys defaults
     ++ filter (fun k => negb (odict.contains k defaults)) (odict.keys inst)
     ++ filter (fun k => negb (odict.contains k (odict.update defaults inst)))
          (odict.keys opts))%list /\
  exists self st1,
    new c kwargs st = (Ok self, st1) /\
    lookup_ref (default_opts self) st1 = Some (odict.update defaults inst) /\
    (c = Slurm ->
     exists st2,
       parse_options self opts st1 =
       (Ok (String.concat "" (map (flag "--") merged)), st2) /\
       heap st2 = (heap st1 ++ [merged])%list) /\
    (c = LSF ->
     odict.contains "n" merged = false \/
     (exists a, odict.get "R" merged = Some (VStr a)) ->
     exists final st2,
       parse_options self opts st1 =
       (Ok (String.concat "" (map (flag "-") final)), st2) /\
       heap st2 = (heap st1 ++ [final])%list /\
       odict.keys final =
         (odict.keys merged
          ++ if odict.contains "W" merged then [] else ["W"])%list /\
       (forall k, k <> "W" ->
                  k <> "R" \/ odict.contains "n" merged = false ->
                  odict.get k final = odict.get k merged) /\
       (forall v, odict.get "W" merged = Some v ->
                  odict.get "W" final = Some v) /\
       (odict.contains "n" merged = true ->
        exists a m, odict.get "R" merged = Some (VStr a) /\
                    odict.get "R" final = Some (VStr (a ++ m)))).
Proof.
  intros G Hc Dk Do defaults inst merged.
  apply distinct_NoDup in Dk. apply distinct_NoDup in Do.
  assert (Di : NoDup (odict.keys inst)) by now apply NoDup_keys_remove.
  split; [| split].
  - intros k. unfold merged, layered. now rewrite !get_update.
  - unfold merged. rewrite !keys_update_nodup by assumption.
    now rewrite app_assoc.
  - pose proof (new_default_opts c kwargs st) as HD.
    pose proof (new_eq c kwargs st) as HN.
    remember (set_trace (trace st ++ init_warnings c)
                (set_heap (heap st ++ [instance_opts c kwargs (glob st)]) st))
      as st1 eqn:Hst1.
    assert (G1 : glob st1 = globals0) by (now subst st1).
    clear Hst1.
    unfold instance_opts in HD. rewrite G in HD. fold inst defaults in HD.
    exists (instance_of c kwargs st), st1.
    split; [exact HN|]. split; [exact HD|]. split.
    + intros ->. eexists. unfold parse_options. rewrite cls_instance_of.
      rewrite (Slurm_parse_options_built _ _ _ _ HD).
      split; reflexivity.
    + intros -> HR.
      destruct (LSF_options_ok globals0 (odict.update defaults inst) opts)
        as [final HF]; try discriminate; auto.
      exists final. eexists. unfold parse_options. rewrite cls_instance_of.
      rewrite (LSF_parse_options_built _ opts _ _ final HD)
        by (now rewrite G1).
      split; [reflexivity|]. split; [reflexivity|].
      destruct (LSF_options_spec _ _ _ _ HF) as (K & O & W & _ & RN & RM).
      fold merged in K, O, W, RN, RM.
      repeat split; auto.
      * intros k NW [NR|Hn]; auto.
        destruct (String.eqb k "R") eqn:E'.
        -- apply String.eqb_eq in E'. subst k. auto.
        -- apply String.eqb_neq in E'. auto.
      * intros Hn. destruct (RM Hn) as (a & m & ? & _ & ?). eauto.
Qed.

(** An LSF backend built with a queue, a core hint and a ceiling, for a
    call that overrides the hint and adds a memory option: the flags
    that [parse_options] returns. *)
Lemma C1_option_layers_witness :
  let st := initial "user" (fun _ _ => "") in
  let kwargs := [("q", VStr "long"); ("C", VInt 1); ("max_jobs", VInt 5)] in
  let opts := [("C", VInt 2); ("M", VStr "8G")] in
  (glob st = globals0 /\ distinct (odict.keys kwargs) = true /\
   distinct (odict.keys opts) = true) /\
  exists self st1,
    new LSF kwargs st = (Ok self, st1) /\
    exists st2,
      parse_options self opts st1 =
      (Ok ("-R " ++ DQUOTE ++ "scratch > 1 && rhel60" ++ DQUOTE
           ++ " -C 2 -q long -M 8G -W 4:00 "), st2).
Proof.
  intros st kwargs opts. split; [repeat split|].
  destruct (C1_option_layers LSF kwargs opts st eq_refl (or_introl eq_refl)
              eq_refl eq_refl) as (_ & _ & self & st1 & HN & _).
  exists self, st1. split; [exact HN|].
  rewrite new_eq in HN. injection HN as <- <-.
  eexists. vm_compute. reflexivity.
Defined.



(** C5. For an LSF backend whose [parse_options] can extend ["R"] (no
    processor count, or a string for ["R"]): the call returns one flag
    [-key value ] for each entry of the dictionary it has built, the one
    object it adds to the store.  When no layer supplies ["W"], the
    value of ["W"] in that dictionary is the entry of the table
    [RUNLIMITS] for the merged value of ["q"], that is ["0:04"] for
    ["express"] and the default ["4:00"] when ["q"] is absent or is not
    a key of the table; a ["W"] supplied by a layer is kept as it is. *)
Theorem C5_LSF_wallclock (kwargs opts : odict value) (st : state) :
  glob st = globals0 ->
  distinct (odict.keys kwargs) = true ->
  distinct (odict.keys opts) = true ->
  let defaults := class_defaults LSF globals0 in
  let inst := odict.remove "max_jobs" kwargs in
  let merged := odict.update (odict.update defaults inst) opts in
  let q := get_value "q" merged in
  odict.contains "n" merged = false \/
  (exists a, odict.get "R" merged = Some (VStr a)) ->
  (odict.get "W" merged = None <->
   odict.get "W" inst = None /\ odict.get "W" opts = None) /\
  exists self st1 final st2,
    new LSF kwargs st = (Ok self, st1) /\
    parse_options self opts st1 =
      (Ok (String.concat "" (map (flag "-") final)), st2) /\
    heap st2 = (heap st1 ++ [final])%list /\
    (odict.get "W" merged = None ->
     (exists w, qget RUNLIMITS0 q = Ok w /\
                odict.get "W" final = Some (VStr w)) /\
     (q = VStr "express" -> odict.get "W" final = Some (VStr "0:04")) /\
     (odict.get "q" merged = None \/ qlookup q RUNLIMITS0 = None ->
      odict.get "W" final = Some (VStr "4:00"))) /\
    (forall v, odict.get "W" merged = Some v ->
               odict.get "W" final = Some v).
Proof.
  intros G Dk Do defaults inst merged q HR.
  apply distinct_NoDup in Dk. apply distinct_NoDup in Do.
  assert (Di : NoDup (odict.keys inst)) by now apply NoDup_keys_remove.
  split.
  - unfold merged. rewrite !get_update by assumption.
    destruct (odict.get "W" opts), (odict.get "W" inst); simpl;
      split; try discriminate; try tauto; intros [? ?]; discriminate.
  - destruct (LSF_options_ok globals0 (odict.update defaults inst) opts)
      as [final HF]; try discriminate; auto.
    destruct (LSF_new_parse_built kwargs opts st final G HF)
      as (self & st1 & HN & _ & HP).
    destruct (LSF_options_spec _ _ _ _ HF) as (_ & _ & W & WN & _ & _).
    fold merged in W, WN. fold q in WN.
    change (RUNLIMITS globals0) with RUNLIMITS0 in WN.
    exists self, st1, final. eexists.
    split; [exact HN|]. split; [exact HP|]. split; [reflexivity|].
    repeat split; auto.
    + destruct (WN H) as (w & Hw & Hfin).
      intros Eq. rewrite Eq in Hw. injection Hw as <-. exact Hfin.
    + destruct (WN H) as (w & Hw & Hfin).
      intros [Hq|Hq].
      * assert (Eq : q = VNone) by (unfold q, get_value; now rewrite Hq).
        rewrite Eq in Hw. injection Hw as <-. exact Hfin.
      * unfold qget, qdefault in Hw. rewrite Hq in Hw.
        injection Hw as <-. exact Hfin.
Qed.

(** An LSF backend for the queue [express] with no wallclock limit: the
    flags that [parse_options] returns end with the limit of the
    queue. *)
Lemma C5_LSF_wallclock_witness :
  let st := initial "user" (fun _ _ => "") in
  let kwargs := [("q", VStr "express")] in
  let opts : odict value := [] in
  (glob st = globals0 /\ distinct (odict.keys kwargs) = true /\
   distinct (odict.keys opts) = true /\
   odict.contains "n"
     (odict.update
        (odict.update (class_defaults LSF globals0)
           (odict.remove "max_jobs" kwargs)) opts) = false) /\
  exists self st1,
    new LSF kwargs st = (Ok self, st1) /\
    exists st2,
      parse_options self opts st1 =
      (Ok ("-R " ++ DQUOTE ++ "scratch > 1 && rhel60" ++ DQUOTE
           ++ " -C 0 -q express -W 0:04 "), st2).
Proof.
  intros st kwargs opts. split; [repeat split|].
  destruct (C5_LSF_wallclock kwargs opts st eq_refl eq_refl eq_refl
              (or_introl eq_refl))
    as (_ & self & st1 & _ & _ & HN & _).
  exists self, st1. split; [exact HN|].
  rewrite new_eq in HN. injection HN as <- <-.
  eexists. vm_compute. reflexivity.
Defined.

(** C2. [throttle] as the code has it.  When neither the argument nor
    the instance gives a ceiling it returns at once, without a poll, a
    log record or a sleep.  With a ceiling it polls [njobs], and on a
    backend other than Local whose listing is not empty that first poll
    raises [TypeError], whatever the ceiling is: no count is compared,
    no record is logged and no sleep is made.  A poll that does not
    raise yields the count 0, so [throttle] returns only when there is
    no ceiling or the ceiling is a positive integer.  So on a backend
    other than Local with ceiling 2, once the command line is built,
    [submit] neither waits nor runs the command while the listing shows
    jobs: it raises [TypeError] right after the first listing. *)
Theorem C2_throttle_type_error (self : batch) (max_jobs' : value) (sleep : Z)
  (st : state) :
  (max_jobs' = VNone -> max_jobs self = VNone ->
   forall fuel, throttle fuel self max_jobs' sleep st = (Ok tt, st)) /\
  (cls self <> Local ->
   stdout st (count_events is_popen (trace st)) (jobs_cmd self) <> "" ->
   ceiling self max_jobs' <> VNone ->
   forall fuel,
     throttle (S fuel) self max_jobs' sleep st =
     (Raise (TypeError "a bytes-like object is required, not 'str'"),
      set_trace (trace st ++ [EPopen (jobs_cmd self)]) st)) /\
  (forall fuel st',
     throttle fuel self max_jobs' sleep st = (Ok tt, st') ->
     ceiling self max_jobs' = VNone \/
     exists m, ceiling self max_jobs' = VInt m /\ 0 < m) /\
  (forall command jobname logfile opts cmd st1,
     cls self <> Local -> max_jobs self = VInt 2 ->
     batch_cmd self command jobname logfile opts st = (Ok cmd, st1) ->
     (forall k, stdout st k (jobs_cmd self) <> "") ->
     forall fuel,
       submit (S fuel) self command jobname logfile opts st =
       (Raise (TypeError "a bytes-like object is required, not 'str'"),
        set_trace (trace st1 ++ [EPopen (jobs_cmd self)]) st1)).
Proof.
  split; [| split; [| split]].
  - intros -> H fuel. now apply throttle_none.
  - intros HL HO HC fuel. rewrite throttle_eq.
    destruct (ceiling self max_jobs') eqn:E; [congruence| |];
      cbv beta iota delta [is_none];
      now apply throttle_loop_type_error.
  - intros fuel st' E. rewrite throttle_eq in E.
    destruct (is_none (ceiling self max_jobs')) eqn:N.
    + left. destruct (ceiling self max_jobs'); simpl in N; congruence.
    + right. eapply throttle_loop_returns; eauto.
  - intros command jobname logfile opts cmd st1 HL HM HB HO fuel.
    eapply submit_throttle_raises; [exact HB|].
    rewrite throttle_eq.
    assert (HC : ceiling self VNone = VInt 2) by (unfold ceiling; simpl; auto).
    rewrite HC. cbv beta iota delta [is_none].
    apply throttle_loop_type_error; [exact HL|].
    destruct (keeps_batch_cmd (List.length (heap st)) self command jobname
                logfile opts st _ st1 (le_n _) HB)
      as [(_ & _ & HS & _) _].
    rewrite HS. apply HO.
Qed.

(** An LSF backend with ceiling 2 whose listing always shows a header
    and three jobs: [submit] does not wait, it raises [TypeError] after
    one listing, and the command has not been run. *)
Lemma C2_throttle_type_error_witness :
  let listing :=
    unlines ["JOBID USER"; "101 user"; "102 user"; "103 user"; ""] in
  let st := initial "user" (fun _ _ => listing) in
  lines_less_header listing = 3 /\
  exists self st0,
    new LSF [("max_jobs", VInt 2)] st = (Ok self, st0) /\
    forall fuel, exists st',
      submit (S fuel) self "echo hi" VNone VNone [] st0 =
      (Raise (TypeError "a bytes-like object is required, not 'str'"), st') /\
      trace st' = [EPopen "bjobs -u user"].
Proof.
  intros listing st. split; [reflexivity|].
  eexists. eexists. split; [rewrite new_eq; reflexivity|].
  intros fuel.
  match goal with
  | |- exists _, submit _ ?self _ _ _ _ ?st0 = _ /\ _ =>
      assert (E : exists cmd st1,
                 batch_cmd self "echo hi" VNone VNone [] st0 = (Ok cmd, st1)
                 /\ trace st1 = [])
        by (eexists; eexists; split; vm_compute; reflexivity);
      destruct E as (cmd & st1 & E & T);
      destruct (C2_throttle_type_error self VNone 60 st0) as (_ & _ & _ & H);
      pose proof (H "echo hi" VNone VNone [] cmd st1
                    ltac:(discriminate) eq_refl E
                    ltac:(intros k; discriminate) fuel) as HS
  end.
  eexists. split; [exact HS|].
  simpl. rewrite T. reflexivity.
Defined.

(** C3. [njobs] as the code has it.  [Local.njobs] returns 0 whatever
    the listing is, and does not run the listing command.  The generic
    [njobs] runs the listing command once and returns 0 when the output
    is empty; for every other output it raises [TypeError], because the
    output of the command is a byte string and the separator given to
    [split] is a text literal: no listing of N lines yields N-1. *)
Theorem C3_njobs_type_error (self : batch) (st : state) :
  let out := stdout st (count_events is_popen (trace st)) (jobs_cmd self) in
  (cls self = Local -> njobs self st = (Ok 0, st)) /\
  (cls self <> Local -> out = "" ->
   njobs self st =
   (Ok 0, set_trace (trace st ++ [EPopen (jobs_cmd self)]) st)) /\
  (cls self <> Local -> out <> "" ->
   njobs self st =
   (Raise (TypeError "a bytes-like object is required, not 'str'"),
    set_trace (trace st ++ [EPopen (jobs_cmd self)]) st)).
Proof.
  intros out. repeat split.
  - apply njobs_Local.
  - intros HL HO. rewrite njobs_generic by assumption.
    fold out. now rewrite HO.
  - intros HL HO. rewrite njobs_generic by assumption.
    fold out. now rewrite count_lines_nonempty.
Qed.

(** An LSF backend whose listing shows a header and one job, two lines
    and so one job by the count of the specification: [njobs] raises. *)
Lemma C3_njobs_type_error_witness :
  let listing := unlines ["JOBID USER"; "101 user"; ""] in
  let st := initial "user" (fun _ _ => listing) in
  lines_less_header listing = 1 /\
  exists self st1,
    new LSF [] st = (Ok self, st1) /\
    cls self <> Local /\
    stdout st1 (count_events is_popen (trace st1)) (jobs_cmd self) <> "" /\
    fst (njobs self st1) =
    Raise (TypeError "a bytes-like object is required, not 'str'").
Proof.
  intros listing st. split; [reflexivity|].
  eexists. eexists. split; [rewrite new_eq; reflexivity|].
  split; [discriminate|]. split; [discriminate|].
  match goal with
  | |- fst (njobs ?self ?st1) = _ =>
      destruct (C3_njobs_type_error self st1) as (_ & _ & H)
  end.
  rewrite H; [reflexivity | discriminate | discriminate].
Defined.

(** C6. On a Local backend built without a ceiling, submitting
    ["echo hi"] with the log file ["out.log"] returns exactly
    ["echo hi  2>&1 | tee out.log"], with two blanks after the command,
    whatever the job name and the other options are.  Its throttle
    returns at once in every state, so [submit] needs no poll: the only
    events are the debug record and the run of the command. *)
Theorem C6_local_submit (kwargs opts : odict value) (jobname : value)
  (fuel : nat) (st : state) :
  glob st = globals0 ->
  get_value "max_jobs" kwargs = VNone ->
  exists self st1,
    new Local kwargs st = (Ok self, st1) /\
    (forall s, throttle fuel self VNone 60 s = (Ok tt, s)) /\
    exists st2,
      submit fuel self "echo hi" jobname (VStr "out.log") opts st1 =
      (Ok "echo hi  2>&1 | tee out.log", st2) /\
      trace st2 =
      (trace st1 ++ [ELog LDebug "echo hi  2>&1 | tee out.log";
                     ECall "echo hi  2>&1 | tee out.log"])%list.
Proof.
  intros G HM.
  pose proof (new_eq Local kwargs st) as HN.
  remember (set_trace (trace st ++ init_warnings Local)
              (set_heap (heap st ++ [instance_opts Local kwargs (glob st)]) st))
    as st1 eqn:Hst1.
  assert (G1 : glob st1 = globals0) by (now subst st1).
  clear Hst1.
  exists (instance_of Local kwargs st), st1. split; [exact HN|].
  assert (HT : forall s,
             throttle fuel (instance_of Local kwargs st) VNone 60 s = (Ok tt, s))
    by (intros s; apply throttle_none; exact HM).
  split; [exact HT|].
  destruct (Local_batch_cmd (instance_of Local kwargs st) "echo hi" jobname
              (VStr "out.log") opts st1 eq_refl eq_refl)
    as [o HB]; [now rewrite G1 | reflexivity |].
  eexists. split.
  - eapply submit_ok; [exact HB | apply HT].
  - reflexivity.
Qed.

(** The scenario of the specification: job name ["j1"], no other option,
    not a single turn of the polling loop allowed. *)
Lemma C6_local_submit_witness :
  let st := initial "user" (fun _ _ => "") in
  (glob st = globals0 /\ get_value "max_jobs" [] = VNone) /\
  exists self st1 st2,
    new Local [] st = (Ok self, st1) /\
    submit 0 self "echo hi" (VStr "j1") (VStr "out.log") [] st1 =
    (Ok "echo hi  2>&1 | tee out.log", st2).
Proof.
  intros st. split; [split; reflexivity|].
  destruct (C6_local_submit [] [] (VStr "j1") 0 st eq_refl eq_refl)
    as (self & st1 & HN & _ & st2 & HS & _).
  exists self, st1, st2. split; assumption.
Defined.

(** C7. [factory(None)] is [factory('local')]: same outcome, same final
    state; with the tables of the module both return a Local backend
    with the same defaults.  [factory('kipac-ibq')] returns an LSF
    backend, and unless the caller gave a queue its defaults have
    ["q"] set to ["kipac-ibq"], because the name is one of the queue
    names of the table [QUEUES].  This holds for every [str.lower] that
    lowers ASCII text as expected. *)
Theorem C7_factory_default (str_lower : string -> string)
  (kwargs : odict value) (st : state) :
  lowers_ascii str_lower ->
  glob st = globals0 ->
  distinct (odict.keys kwargs) = true ->
  factory str_lower None kwargs st =
  factory str_lower (Some "local") kwargs st /\
  (exists self st1 d,
     factory str_lower None kwargs st = (Ok self, st1) /\
     factory str_lower (Some "local") kwargs st = (Ok self, st1) /\
     cls self = Local /\
     lookup_ref (default_opts self) st1 = Some d) /\
  mem "kipac-ibq" (all_queues globals0) = true /\
  exists self st1 d,
    factory str_lower (Some "kipac-ibq") kwargs st = (Ok self, st1) /\
    cls self = LSF /\
    lookup_ref (default_opts self) st1 = Some d /\
    (odict.get "q" kwargs = None ->
     odict.get "q" d = Some (VStr "kipac-ibq")).
Proof.
  intros HL G D. apply distinct_NoDup in D.
  assert (E1 : factory_name str_lower (Some "local") = "local")
    by (unfold factory_name; now rewrite HL).
  assert (E2 : factory_name str_lower (Some "kipac-ibq") = "kipac-ibq")
    by (unfold factory_name; now rewrite HL).
  split; [reflexivity|]. split; [|split; [reflexivity|]].
  - destruct (factory_ok str_lower (Some "local") kwargs st Local G)
      as (st1 & HF & _ & HD); [now rewrite E1 | discriminate |].
    eexists. exists st1. eexists. repeat split; [exact HF | exact HF | | exact HD].
    apply cls_instance_of.
  - destruct (factory_ok str_lower (Some "kipac-ibq") kwargs st LSF G)
      as (st1 & HF & _ & HD); [now rewrite E2 | discriminate |].
    rewrite E2 in HD.
    eexists. exists st1. eexists. repeat split; [exact HF | | exact HD |].
    + apply cls_instance_of.
    + intros HQ. now apply instance_opts_q.
Qed.

(** The factory called without keyword arguments. *)
Lemma C7_factory_default_witness :
  let st := initial "user" (fun _ _ => "") in
  (lowers_ascii ascii_lower /\ glob st = globals0 /\
   distinct (odict.keys (@nil (string * value))) = true) /\
  factory ascii_lower None [] st = factory ascii_lower (Some "local") [] st /\
  exists self st1 d,
    factory ascii_lower (Some "kipac-ibq") [] st = (Ok self, st1) /\
    cls self = LSF /\
    lookup_ref (default_opts self) st1 = Some d /\
    odict.get "q" d = Some (VStr "kipac-ibq").
Proof.
  intros st.
  split; [split; [intros s _; reflexivity | split; reflexivity]|].
  destruct (C7_factory_default ascii_lower [] st (fun s _ => eq_refl)
              eq_refl eq_refl)
    as (E & _ & _ & self & st1 & d & HF & HC & HD & HQ).
  split; [exact E|].
  exists self, st1, d. repeat split; auto.
Defined.

(** C8. With the tables of the module [factory] fails in two cases only,
    told apart by the name that [str.lower] gives for the queue.
    A name of the Condor family, that is a Condor alias or queue name
    that no earlier family claims, raises "Condor cluster not
    implemented" after the backend has been constructed (its warning is
    logged), and no backend is returned.  A name of no family raises
    "Unexpected queue name", followed by the lowered name.
    Every other name returns a backend of its family. *)
Theorem C8_factory_errors (str_lower : string -> string)
  (queue : option string) (kwargs : odict value) (st : state) :
  glob st = globals0 ->
  let name := factory_name str_lower queue in
  (family_names "local" = ["local"] /\
   family_names "lsf" =
     ["lsf"; "slac"; "kipac"; "express"; "short"; "medium"; "long"; "xlong";
      "xxl"; "kipac-ibq"; "bulletmpi"] /\
   family_names "slurm" = ["slurm"; "midway"; "kicp"] /\
   family_names "condor" =
     ["condor"; "fnal"; "local"; "vanilla"; "universe"; "grid"]) /\
  (family name = Some Condor <->
   mem name (family_names "condor") = true /\
   mem name (family_names "local") = false /\
   mem name (family_names "lsf") = false /\
   mem name (family_names "slurm") = false) /\
  (family name = None <->
   mem name (family_names "local") = false /\
   mem name (family_names "lsf") = false /\
   mem name (family_names "slurm") = false /\
   mem name (family_names "condor") = false) /\
  match family name with
  | Some Condor =>
      exists st',
        factory str_lower queue kwargs st =
        (Raise (Exception_ "Condor cluster not implemented"), st') /\
        trace st' =
        (trace st ++ [ELog LWarning "Condor cluster is untested"])%list
  | Some c =>
      exists self st',
        factory str_lower queue kwargs st = (Ok self, st') /\ cls self = c
  | None =>
      factory str_lower queue kwargs st =
      (Raise (TypeError ("Unexpected queue name: " ++ name)), st)
  end.
Proof.
  intros G name. split; [repeat split|]. split; [|split].
  - unfold family.
    destruct (mem name (family_names "local")),
             (mem name (family_names "lsf")),
             (mem name (family_names "slurm")),
             (mem name (family_names "condor"));
      split; try discriminate; try tauto;
      intros (? & ? & ? & ?); discriminate.
  - unfold family.
    destruct (mem name (family_names "local")),
             (mem name (family_names "lsf")),
             (mem name (family_names "slurm")),
             (mem name (family_names "condor"));
      split; try discriminate; try tauto;
      intros (? & ? & ? & ?); discriminate.
  - rewrite (factory_eq _ _ _ _ G). cbv zeta. fold name.
    pose proof (family_not_Batch name) as NB.
    destruct (family name) as [[| | | |]|]; try congruence;
      try (rewrite new_eq; eexists; eexists; split; reflexivity);
      try (rewrite new_eq; eexists; split; reflexivity).
Qed.

(** The names ["FNAL"] and ["nowhere"] make the factory fail, the first
    as a Condor alias and the second as a name of no family. *)
Lemma C8_factory_errors_witness :
  let st := initial "user" (fun _ _ => "") in
  glob st = globals0 /\
  (exists st',
     factory ascii_lower (Some "FNAL") [] st =
     (Raise (Exception_ "Condor cluster not implemented"), st')) /\
  factory ascii_lower (Some "nowhere") [] st =
  (Raise (TypeError "Unexpected queue name: nowhere"), st).
Proof.
  intros st. split; [reflexivity|]. split.
  - destruct (proj2 (proj2 (proj2
                (C8_factory_errors ascii_lower (Some "FNAL") [] st eq_refl))))
      as (st' & H & _).
    exists st'. exact H.
  - exact (proj2 (proj2 (proj2
             (C8_factory_errors ascii_lower (Some "nowhere") [] st eq_refl)))).
Defined.

(** C10. The name ["local"] is a queue name of the Condor entry of the
    table [QUEUES] and of no other entry, so the test on the union of
    the queue names succeeds for it: unless the caller gave a queue,
    [factory('local')] and [factory(None)] return a Local backend whose
    defaults have ["q"] set to ["local"].  In general, for every name
    found in the queue list of any backend, the backend that the factory
    returns has ["q"] set to that name.  This holds for every
    [str.lower] that lowers ASCII text as expected. *)
Theorem C10_factory_queue (str_lower : string -> string)
  (queue : option string) (kwargs : odict value) (st : state) :
  lowers_ascii str_lower ->
  glob st = globals0 ->
  distinct (odict.keys kwargs) = true ->
  odict.get "q" kwargs = None ->
  (odict.get "local" QUEUES0 = Some [] /\
   exists l, odict.get "condor" QUEUES0 = Some l /\ mem "local" l = true) /\
  mem "local" (all_queues globals0) = true /\
  (exists self st1 d,
     factory str_lower (Some "local") kwargs st = (Ok self, st1) /\
     factory str_lower None kwargs st = (Ok self, st1) /\
     cls self = Local /\
     lookup_ref (default_opts self) st1 = Some d /\
     odict.get "q" d = Some (VStr "local")) /\
  (mem (factory_name str_lower queue) (all_queues globals0) = true ->
   forall self st1,
     factory str_lower queue kwargs st = (Ok self, st1) ->
     exists d,
       lookup_ref (default_opts self) st1 = Some d /\
       odict.get "q" d = Some (VStr (factory_name str_lower queue))).
Proof.
  intros HL G D HQ. apply distinct_NoDup in D.
  assert (E1 : factory_name str_lower (Some "local") = "local")
    by (unfold factory_name; now rewrite HL).
  split; [split; [reflexivity | eexists; split; reflexivity]|].
  split; [reflexivity|]. split.
  - destruct (factory_ok str_lower (Some "local") kwargs st Local G)
      as (st1 & HF & _ & HD); [now rewrite E1 | discriminate |].
    rewrite E1 in HD.
    eexists. exists st1. eexists.
    repeat split; [exact HF | exact HF | apply cls_instance_of | exact HD |].
    now apply instance_opts_q.
  - intros HM self st1 HF.
    destruct (family (factory_name str_lower queue)) as [c|] eqn:E.
    + assert (NC : c <> Condor).
      { intros ->. rewrite (factory_eq _ _ _ _ G) in HF. cbv zeta in HF.
        rewrite E in HF. discriminate. }
      destruct (factory_ok str_lower queue kwargs st c G E NC)
        as (st1' & HF' & _ & HD).
      rewrite HF in HF'. injection HF' as -> ->.
      eexists. split; [exact HD|].
      unfold factory_kwargs. rewrite HM. now apply instance_opts_q.
    + rewrite (factory_eq _ _ _ _ G) in HF. cbv zeta in HF.
      rewrite E in HF. discriminate.
Qed.

(** The factory called for ["local"] without keyword arguments. *)
Lemma C10_factory_queue_witness :
  let st := initial "user" (fun _ _ => "") in
  (lowers_ascii ascii_lower /\ glob st = globals0 /\
   distinct (odict.keys (@nil (string * value))) = true /\
   odict.get "q" (@nil (string * value)) = None) /\
  exists self st1 d,
    factory ascii_lower (Some "local") [] st = (Ok self, st1) /\
    cls self = Local /\
    lookup_ref (default_opts self) st1 = Some d /\
    odict.get "q" d = Some (VStr "local").
Proof.
  intros st.
  split; [split; [intros s _; reflexivity | repeat split]|].
  destruct (C10_factory_queue ascii_lower None [] st (fun s _ => eq_refl)
              eq_refl eq_refl eq_refl)
    as (_ & _ & (self & st1 & d & HF & _ & HC & HD & HQ) & _).
  exists self, st1, d. repeat split; auto.
Defined.

(** C9. No operation changes the module-level tables or the class
    attributes, and none changes a dictionary that existed before it
    ([frame] says both): construction, the factory, [parse_options],
    [batch], [throttle] and [submit] only add objects and events, and
    [remap_options] changes nothing but the dictionary it is given.
    The constructor gives every instance a dictionary of its own, a copy
    of the class defaults updated with the keyword arguments, and leaves
    the class defaults as they were.  [parse_options] works on a
    dictionary of its own as well, so the instance defaults are the same
    after a call and a second call with the same options has the same
    outcome; so has a second call of [batch]. *)
Theorem C9_no_shared_mutation (st : state) :
  (forall c kwargs,
     exists self st',
       new c kwargs st = (Ok self, st') /\
       default_opts self = Obj (List.length (heap st)) /\
       lookup_ref (default_opts self) st = None /\
       lookup_ref (default_opts self) st' =
         Some (odict.update (class_defaults c (glob st))
                 (odict.remove "max_jobs" kwargs)) /\
       lookup_ref (defaults_ref c) st' = Some (class_defaults c (glob st)) /\
       frame (List.length (heap st)) st st') /\
  (forall str_lower queue kwargs o st',
     factory str_lower queue kwargs st = (o, st') ->
     frame (List.length (heap st)) st st') /\
  (forall self opts o st',
     parse_options self opts st = (o, st') ->
     frame (List.length (heap st)) st st') /\
  (forall self command jobname logfile opts o st',
     batch_cmd self command jobname logfile opts st = (o, st') ->
     frame (List.length (heap st)) st st') /\
  (forall fuel self max_jobs' sleep o st',
     throttle fuel self max_jobs' sleep st = (o, st') ->
     frame (List.length (heap st)) st st') /\
  (forall fuel self command jobname logfile opts o st',
     submit fuel self command jobname logfile opts st = (o, st') ->
     frame (List.length (heap st)) st st') /\
  (forall self n o st',
     (n <= List.length (heap st))%nat ->
     remap_options self (Obj n) st = (o, st') -> frame n st st') /\
  (forall self opts d o st',
     lookup_ref (default_opts self) st = Some d ->
     parse_options self opts st = (o, st') ->
     lookup_ref (default_opts self) st' = Some d /\
     exists st'', parse_options self opts st' = (o, st'')) /\
  (forall self command jobname logfile opts d o st',
     lookup_ref (default_opts self) st = Some d ->
     batch_cmd self command jobname logfile opts st = (o, st') ->
     lookup_ref (default_opts self) st' = Some d /\
     exists st'',
       batch_cmd self command jobname logfile opts st' = (o, st'')).
Proof.
  split.
  { intros c kwargs. exists (instance_of c kwargs st). eexists.
    split; [apply new_eq|].
    split; [destruct c; reflexivity|].
    split; [destruct c; simpl; apply nth_error_None; lia|].
    split; [apply new_default_opts|].
    split; [destruct c; reflexivity|].
    eapply keeps_new; [apply le_n | apply new_eq]. }
  split; [intros; eapply keeps_factory; eauto|].
  split; [intros; eapply keeps_parse_options; eauto|].
  split; [intros; eapply keeps_batch_cmd; eauto|].
  split; [intros; eapply keeps_throttle; eauto|].
  split; [intros; eapply keeps_submit; eauto|].
  split.
  { intros self n o st' L E.
    eapply keeps_remap_options; eauto. eexists. split; eauto. }
  split.
  - intros self opts d o st' H E. split.
    + eapply frame_lookup; eauto. eapply keeps_parse_options; eauto.
    + destruct (parse_options_fun self opts (glob st) d) as [o' HP].
      destruct (HP st eq_refl H) as [l E']. rewrite E' in E.
      injection E as <- <-.
      destruct (HP (set_heap (heap st ++ l) st) eq_refl
                  (lookup_ref_extend _ st l d H)) as [l' E''].
      eexists. exact E''.
  - intros self command jobname logfile opts d o st' H E. split.
    + eapply frame_lookup; eauto. eapply keeps_batch_cmd; eauto.
    + destruct (batch_cmd_fun self command jobname logfile opts (glob st) d)
        as [o' HP].
      destruct (HP st eq_refl H) as [l E']. rewrite E' in E.
      injection E as <- <-.
      destruct (HP (set_heap (heap st ++ l) st) eq_refl
                  (lookup_ref_extend _ st l d H)) as [l' E''].
      eexists. exact E''.
Qed.

(** An LSF backend for [bulletmpi] asked twice for four processors: the
    two calls serialize the same options and the tables are those of the
    module afterwards. *)
Lemma C9_no_shared_mutation_witness :
  let st := initial "user" (fun _ _ => "") in
  exists self st1 s st2 st3,
    new LSF [("q", VStr "bulletmpi")] st = (Ok self, st1) /\
    parse_options self [("n", VInt 4)] st1 = (Ok s, st2) /\
    parse_options self [("n", VInt 4)] st2 = (Ok s, st3) /\
    glob st2 = globals0.
Proof.
  intros st.
  destruct (C9_no_shared_mutation st) as (HN & _).
  destruct (HN LSF [("q", VStr "bulletmpi")])
    as (self & st1 & EN & Hr & _ & HD & _ & _).
  assert (EP : exists s st2,
             parse_options self [("n", VInt 4)] st1 = (Ok s, st2)).
  { rewrite new_eq in EN. injection EN as <- <-.
    eexists. eexists. vm_compute. reflexivity. }
  destruct EP as (s & st2 & EP).
  destruct (C9_no_shared_mutation st1) as (_ & _ & HF & _ & _ & _ & _ & HR & _).
  destruct (HR self [("n", VInt 4)] _ (Ok s) st2 HD EP) as (_ & st3 & EP').
  exists self, st1, s, st2, st3. repeat split; auto.
  destruct (HF self [("n", VInt 4)] (Ok s) st2 EP) as (G & _).
  rewrite G. rewrite new_eq in EN. now injection EN as <- <-.
Defined.

(** * Further properties of the code *)

(** ** Dictionaries reached through any reference *)

Lemma set_heap_id st : set_heap (heap st) st = st.
Proof. now destruct st. Qed.

Lemma replace_nth_same n d h :
  nth_error h n = Some d -> replace_nth n d h = h.
Proof.
  revert n. induction h as [|x h IH]; intros [|n] H; simpl in *; auto;
    try congruence. f_equal. auto.
Qed.

Lemma replace_nth_twice n a b h :
  replace_nth n b (replace_nth n a h) = replace_nth n b h.
Proof.
  revert n. induction h as [|x h IH]; intros [|n]; simpl; auto. f_equal. auto.
Qed.

Lemma nth_error_replace_nth_eq n a d h :
  nth_error h n = Some d -> nth_error (replace_nth n a h) n = Some a.
Proof.
  revert n. induction h as [|x h IH]; intros [|n] H; simpl in *; auto;
    congruence.
Qed.

Lemma assign_at n a d h st :
  nth_error h n = Some d ->
  assign (Obj n) a (set_heap h st) = (Ok tt, set_heap (replace_nth n a h) st).
Proof.
  intros H. unfold assign. simpl heap.
  assert (L : (n < List.length h)%nat) by (apply nth_error_Some; congruence).
  apply Nat.ltb_lt in L. now rewrite L.
Qed.

Lemma deref_at n d h st :
  nth_error h n = Some d -> deref (Obj n) (set_heap h st) = (Ok d, set_heap h st).
Proof. intros H. apply deref_ok. exact H. Qed.

Lemma modify_at n f d h st :
  nth_error h n = Some d ->
  modify (Obj n) f (set_heap h st) =
  (Ok tt, set_heap (replace_nth n (f d) h) st).
Proof.
  intros H. unfold modify. run_with (deref_at n d h st H).
  now apply assign_at with (d := d).
Qed.

(** [remap_options] on a dictionary of the heap computes [remap_keys]
    in place. *)
Lemma remap_options_at self n st d :
  nth_error (heap st) n = Some d ->
  let m := mapping_of (cls self) (glob st) in
  remap_options self (Obj n) st =
  (fst (remap_keys m (odict.keys m) d),
   set_heap (replace_nth n (snd (remap_keys m (odict.keys m) d)) (heap st)) st).
Proof.
  intros H m. unfold remap_options. rewrite bind_gets. fold m.
  rewrite <- (set_heap_id st) at 1.
  revert H. generalize (heap st) as h. generalize (odict.keys m) as ks.
  intros ks. revert d.
  induction ks as [|k ks IH]; intros d h H.
  - simpl. now rewrite (replace_nth_same _ _ _ H).
  - simpl for_each. simpl remap_keys.
    rewrite bind_assoc. run_with (deref_at n d h st H).
    unfold pop_none. rewrite bind_assoc.
    run_with (assign_at n (odict.remove k d) d h st H).
    pose proof (nth_error_replace_nth_eq n (odict.remove k d) d h H) as H1.
    destruct (is_none (get_value k d)).
    + rewrite bind_ret.
      etransitivity; [apply (IH _ _ H1)|]. now rewrite replace_nth_twice.
    + rewrite !bind_assoc, bind_gets. simpl glob. fold m.
      rewrite bind_assoc, bind_lift.
      destruct (getitem k m) as [k'| |];
        try reflexivity.
      run_with (modify_at n (odict.setitem k' (get_value k d))
                  (odict.remove k d) _ st H1).
      rewrite replace_nth_twice.
      pose proof (nth_error_replace_nth_eq n
                    (odict.setitem k' (get_value k d) (odict.remove k d))
                    d h H) as H2.
      etransitivity; [apply (IH _ _ H2)|]. now rewrite replace_nth_twice.
Qed.


Lemma get_remove_eq {V} k (d : odict V) :
  NoDup (odict.keys d) -> odict.get k (odict.remove k d) = None.
Proof.
  induction d as [|[k' v] r IH]; simpl; auto.
  intros H. inversion H as [|? ? NI ND]; subst.
  destruct (String.eqb k' k) eqn:E; simpl.
  - apply String.eqb_eq in E. subst. now apply get_None_keys.
  - rewrite E. auto.
Qed.

Lemma NoDup_keys_setitem {V} k (v : V) d :
  NoDup (odict.keys d) -> NoDup (odict.keys (odict.setitem k v d)).
Proof.
  intros H. rewrite keys_setitem. unfold odict.contains.
  destruct (odict.get k d) eqn:E; auto.
  apply get_None_keys in E.
  apply NoDup_app; repeat split; auto.
  - constructor; [intros [] | constructor].
  - intros x Hx [<-|[]]. contradiction.
Qed.

Lemma NoDup_keys_update {V} (d items : odict V) :
  NoDup (odict.keys d) -> NoDup (odict.keys (odict.update d items)).
Proof.
  unfold odict.update. revert d.
  induction items as [|[k v] r IH]; intros d H; simpl; auto.
  apply IH. now apply NoDup_keys_setitem.
Qed.

Lemma NoDup_distinct l : NoDup l -> distinct l = true.
Proof.
  induction 1 as [|k r NI ND IH]; simpl; auto.
  rewrite IH, andb_true_r. apply negb_true_iff.
  destruct (mem k r) eqn:E; auto. apply mem_In in E. contradiction.
Qed.

Ltac get_simpl :=
  repeat first
    [ rewrite get_setitem_eq
    | rewrite get_setitem_neq by discriminate
    | rewrite get_remove_neq by discriminate
    | rewrite get_value_setitem_neq by discriminate ].

Lemma get_value_remove_neq k k' d :
  k <> k' -> get_value k' (odict.remove k d) = get_value k' d.
Proof. intros N. unfold get_value. now rewrite get_remove_neq. Qed.

(** The remapping of LSF, on a dictionary with distinct keys. *)
Lemma remap_keys_LSF d :
  NoDup (odict.keys d) ->
  let r := remap_keys (LSF_mapping globals0)
             (odict.keys (LSF_mapping globals0)) d in
  fst r = Ok tt /\
  NoDup (odict.keys (snd r)) /\
  odict.get "jobname" (snd r) = None /\
  odict.get "logfile" (snd r) = None /\
  odict.get "J" (snd r) =
    (if is_none (get_value "jobname" d) then odict.get "J" d
     else Some (get_value "jobname" d)) /\
  odict.get "oo" (snd r) =
    (if is_none (get_value "logfile" d) then odict.get "oo" d
     else Some (get_value "logfile" d)) /\
  (forall k, k <> "jobname" -> k <> "logfile" -> k <> "J" -> k <> "oo" ->
             odict.get k (snd r) = odict.get k d).
Proof.
  intros ND r. subst r. simpl.
  set (vj := get_value "jobname" d).
  set (d2 := if is_none vj then odict.remove "jobname" d
             else odict.setitem "J" vj (odict.remove "jobname" d)).
  assert (E2 : (if is_none vj
                then remap_keys (LSF_mapping globals0) ["logfile"]
                       (odict.remove "jobname" d)
                else remap_keys (LSF_mapping globals0) ["logfile"]
                       (odict.setitem "J" vj (odict.remove "jobname" d)))
               = remap_keys (LSF_mapping globals0) ["logfile"] d2)
    by (unfold d2; destruct (is_none vj); reflexivity).
  simpl in E2. simpl. rewrite E2. clear E2.
  assert (ND2 : NoDup (odict.keys d2)).
  { unfold d2. destruct (is_none vj);
      [|apply NoDup_keys_setitem]; now apply NoDup_keys_remove. }
  assert (VL : get_value "logfile" d2 = get_value "logfile" d).
  { unfold d2. destruct (is_none vj);
      rewrite ?get_value_setitem_neq, get_value_remove_neq by discriminate;
      reflexivity. }
  assert (GJ : odict.get "jobname" d2 = None).
  { unfold d2. destruct (is_none vj); get_simpl; now apply get_remove_eq. }
  assert (GJ' : odict.get "J" d2 =
                if is_none vj then odict.get "J" d else Some vj).
  { unfold d2. destruct (is_none vj); get_simpl; reflexivity. }
  assert (GO : odict.get "oo" d2 = odict.get "oo" d).
  { unfold d2. destruct (is_none vj); get_simpl; reflexivity. }
  assert (GK : forall k, k <> "jobname" -> k <> "J" ->
                         odict.get k d2 = odict.get k d).
  { intros k N1 N2. unfold d2. destruct (is_none vj);
      rewrite ?get_setitem_neq, get_remove_neq by congruence; reflexivity. }
  rewrite VL. set (vl := get_value "logfile" d).
  destruct (is_none vl); simpl.
  - repeat split.
    + now apply NoDup_keys_remove.
    + rewrite get_remove_neq by discriminate. exact GJ.
    + now apply get_remove_eq.
    + rewrite get_remove_neq by discriminate. exact GJ'.
    + rewrite get_remove_neq by discriminate. exact GO.
    + intros k N1 N2 N3 N4. rewrite get_remove_neq by congruence. auto.
  - repeat split.
    + apply NoDup_keys_setitem. now apply NoDup_keys_remove.
    + get_simpl. exact GJ.
    + get_simpl. now apply get_remove_eq.
    + get_simpl. exact GJ'.
    + get_simpl. reflexivity.
    + intros k N1 N2 N3 N4.
      rewrite get_setitem_neq, get_remove_neq by congruence. auto.
Qed.

(** X8. [remap_options] of an LSF backend, applied to a dictionary with
    distinct keys, does not fail and changes that dictionary only.  It
    leaves no generic key: ["jobname"] and ["logfile"] are removed.  A
    value of ["jobname"] other than [None] is stored under ["J"], and
    one of ["logfile"] under ["oo"], in place of what was there; a
    [None] value is dropped and ["J"], ["oo"] stay as they were.  Every
    other key keeps its value and the keys stay distinct. *)
Theorem X8_remap_options_LSF (self : batch) (n : nat) (d : odict value)
  (st : state) :
  glob st = globals0 -> cls self = LSF ->
  nth_error (heap st) n = Some d ->
  distinct (odict.keys d) = true ->
  exists d',
    remap_options self (Obj n) st =
    (Ok tt, set_heap (replace_nth n d' (heap st)) st) /\
    distinct (odict.keys d') = true /\
    odict.get "jobname" d' = None /\
    odict.get "logfile" d' = None /\
    odict.get "J" d' =
      (if is_none (get_value "jobname" d) then odict.get "J" d
       else Some (get_value "jobname" d)) /\
    odict.get "oo" d' =
      (if is_none (get_value "logfile" d) then odict.get "oo" d
       else Some (get_value "logfile" d)) /\
    (forall k, k <> "jobname" -> k <> "logfile" -> k <> "J" -> k <> "oo" ->
               odict.get k d' = odict.get k d).
Proof.
  intros G HC H D. apply distinct_NoDup in D.
  pose proof (remap_options_at self n st d H) as E. cbv zeta in E.
  rewrite HC, G in E. change (mapping_of LSF globals0) with (LSF_mapping globals0) in E.
  destruct (remap_keys_LSF d D) as (R & ND & P).
  rewrite R in E. eexists. split; [exact E|].
  split; [now apply NoDup_distinct | exact P].
Qed.

(** A job name, a processor count and a log file that is [None]. *)
Lemma X8_remap_options_LSF_witness :
  let d := [("jobname", VStr "j1"); ("n", VInt 4); ("logfile", VNone)] in
  let st := set_heap [d] (initial "user" (fun _ _ => "")) in
  let self := instance_of LSF [] st in
  (glob st = globals0 /\ cls self = LSF /\
   nth_error (heap st) 0 = Some d /\ distinct (odict.keys d) = true) /\
  exists d',
    remap_options self (Obj 0) st =
    (Ok tt, set_heap (replace_nth 0 d' (heap st)) st) /\
    odict.get "J" d' = Some (VStr "j1") /\ odict.get "oo" d' = None.
Proof.
  intros d st self. split; [repeat split|].
  destruct (X8_remap_options_LSF self 0 d st eq_refl eq_refl eq_refl eq_refl)
    as (d' & E & _ & _ & _ & HJ & HO & _).
  exists d'. repeat split; assumption.
Defined.


Section Emits.
Context {A B : Type}.
Variable P : event -> Prop.

Lemma emits_same (m : M A) :
  (forall st o st', m st = (o, st') -> trace st' = trace st) -> emits P m.
Proof.
  intros H st o st' E. exists []. rewrite app_nil_r. split; eauto.
Qed.

Lemma emits_ret (a : A) : emits P (ret a).
Proof. apply emits_same. now intros st o st' [= <- <-]. Qed.

Lemma emits_raise (e : exn) : emits P (@raise A e).
Proof. apply emits_same. now intros st o st' [= <- <-]. Qed.

Lemma emits_lift (o : outcome A) : emits P (lift o).
Proof. apply emits_same. now intros st o' st' [= <- <-]. Qed.

Lemma emits_gets (f : state -> A) : emits P (gets f).
Proof. apply emits_same. now intros st o st' [= <- <-]. Qed.

Lemma emits_bind (m : M A) (k : A -> M B) :
  emits P m -> (forall a, emits P (k a)) -> emits P (bind m k).
Proof.
  intros Hm Hk st o st' E. unfold bind in E.
  destruct (m st) as [[a|e|] st1] eqn:E1;
    destruct (Hm st _ st1 E1) as (t1 & T1 & F1).
  - destruct (Hk a st1 o st' E) as (t2 & T2 & F2).
    exists (t1 ++ t2)%list. rewrite T2, T1, app_assoc. split; auto.
    apply Forall_app. auto.
  - injection E as <- <-. eauto.
  - injection E as <- <-. eauto.
Qed.

Lemma emits_weaken (Q : event -> Prop) (m : M A) :
  emits Q m -> (forall e, Q e -> P e) -> emits P m.
Proof.
  intros H W st o st' E. destruct (H st o st' E) as (t & T & F).
  exists t. split; auto. eapply Forall_impl; eauto.
Qed.
End Emits.

Lemma emits_deref P r : emits P (deref r).
Proof.
  apply emits_same. intros st o st'. unfold deref.
  destruct (lookup_ref r st); now intros [= <- <-].
Qed.

Lemma emits_assign P r d : emits P (assign r d).
Proof.
  apply emits_same. intros st o st'. unfold assign.
  destruct r as [c|n].
  - destruct (write_globals c d (glob st)); now intros [= <- <-].
  - destruct (n <? List.length (heap st))%nat; now intros [= <- <-].
Qed.

Lemma emits_modify P r f : emits P (modify r f).
Proof.
  unfold modify. apply emits_bind; [apply emits_deref|].
  intros d. apply emits_assign.
Qed.

Lemma emits_alloc P d : emits P (alloc d).
Proof. apply emits_same. now intros st o st' [= <- <-]. Qed.

Lemma emits_emit (P : event -> Prop) e : P e -> emits P (emit e).
Proof.
  intros H st o st' [= <- <-]. exists [e]. split; auto.
Qed.

Lemma emits_for_each {X} P (l : list X) body :
  (forall x, emits P (body x)) -> emits P (for_each l body).
Proof.
  intros H. induction l; simpl.
  - apply emits_ret.
  - apply emits_bind; auto.
Qed.

Ltac emits_step :=
  match goal with
  | |- emits _ (bind _ _) => apply emits_bind; [| intros ?]
  | |- emits _ (ret _) => apply emits_ret
  | |- emits _ (raise _) => apply emits_raise
  | |- emits _ (lift _) => apply emits_lift
  | |- emits _ (gets _) => apply emits_gets
  | |- emits _ (deref _) => apply emits_deref
  | |- emits _ (modify _ _) => apply emits_modify
  | |- emits _ (assign _ _) => apply emits_assign
  | |- emits _ (alloc _) => apply emits_alloc
  | |- emits _ (if ?b then _ else _) => destruct b
  | |- emits _ (match ?x with _ => _ end) => destruct x
  | |- emits _ (let (_, _) := ?x in _) => destruct x
  end.

Lemma emits_runlimit P self q : emits P (runlimit self q).
Proof. unfold runlimit. repeat emits_step. Qed.

Lemma emits_mpiopts P self q : emits P (mpiopts self q).
Proof. unfold mpiopts. repeat emits_step. Qed.

Lemma emits_parse_options P self opts : emits P (parse_options self opts).
Proof.
  unfold parse_options, Local_parse_options, LSF_parse_options,
    Slurm_parse_options.
  destruct (cls self);
    repeat first [apply emits_runlimit | apply emits_mpiopts | emits_step].
Qed.

Lemma emits_remap_options P self r : emits P (remap_options self r).
Proof.
  unfold remap_options. apply emits_bind; [apply emits_gets | intros m].
  apply emits_for_each. intros k. unfold pop_none. repeat emits_step.
Qed.

Lemma emits_batch_cmd P self command jobname logfile opts :
  emits P (batch_cmd self command jobname logfile opts).
Proof.
  unfold batch_cmd.
  repeat first [apply emits_remap_options | apply emits_parse_options
               | emits_step].
Qed.

Lemma emits_nothing {A} (m : M A) st o st' :
  emits no_event m -> m st = (o, st') -> trace st' = trace st.
Proof.
  intros H E. destruct (H st o st' E) as (t & T & F).
  destruct t as [|e t]; [now rewrite app_nil_r in T|].
  inversion F as [|? ? []].
Qed.

Lemma emits_sleep_for (P : event -> Prop) seconds :
  P (ESleep seconds) -> emits P (sleep_for seconds).
Proof.
  intros H. unfold sleep_for.
  destruct (seconds <? 0); [apply emits_raise|].
  apply emits_bind; [apply emits_gets|]. intros longest.
  destruct (longest <? seconds); [apply emits_raise | now apply emits_emit].
Qed.

Lemma emits_njobs self :
  emits (fun e => e = EPopen (jobs_cmd self)) (njobs self).
Proof.
  intros st o st' E.
  assert (D : cls self = Local \/ cls self <> Local)
    by (destruct (cls self); auto; right; discriminate).
  destruct D as [D|D].
  - rewrite (njobs_Local _ _ D) in E. injection E as <- <-.
    exists []. rewrite app_nil_r. auto.
  - rewrite (njobs_generic _ _ D) in E. injection E as <- <-.
    exists [EPopen (jobs_cmd self)]. split; [reflexivity|].
    repeat constructor.
Qed.

Lemma emits_throttle fuel self mj sleep :
  emits (throttle_event self sleep) (throttle fuel self mj sleep).
Proof.
  unfold throttle.
  destruct (is_none (if is_none mj then max_jobs self else mj));
    [apply emits_ret|].
  generalize (if is_none mj then max_jobs self else mj) as m. intros m.
  induction fuel as [|fuel IH]; simpl.
  - apply emits_same. now intros st o st' [= <- <-].
  - apply emits_bind.
    { eapply emits_weaken; [apply emits_njobs|]. intros e ->. now left. }
    intros n. apply emits_bind; [apply emits_lift|]. intros [|].
    + apply emits_ret.
    + apply emits_bind.
      { apply emits_emit. right. right. eauto. }
      intros _. apply emits_bind; [|intros _; exact IH].
      apply emits_sleep_for. right. now left.
Qed.


(** ** The command line, backend by backend *)

(** [batch] is the remapping of the options of the call, then
    [parse_options], then the template. *)
Lemma batch_cmd_unfold self command jobname logfile opts st :
  let m := mapping_of (cls self) (glob st) in
  let R := remap_keys m (odict.keys m) (batch_opts jobname logfile opts) in
  batch_cmd self command jobname logfile opts st =
  match fst R with
  | Ok _ =>
      (s <- parse_options self (snd R) ;;
       lift (pct_format (submit_cmd self)
               [("opts", VStr s); ("command", VStr command)]))
        (set_heap (heap st ++ [snd R]) st)
  | Raise e => (Raise e, set_heap (heap st ++ [snd R]) st)
  | OutOfFuel => (OutOfFuel, set_heap (heap st ++ [snd R]) st)
  end.
Proof.
  intros m R. unfold batch_cmd. run_with (alloc_eq opts st).
  set (o1 := if truthy jobname
             then odict.update opts [("jobname", jobname)] else opts).
  assert (J : (if truthy jobname
               then modify (Obj (List.length (heap st)))
                      (fun o => odict.update o [("jobname", jobname)])
               else ret tt) (set_heap (heap st ++ [opts]) st)
              = (Ok tt, set_heap (heap st ++ [o1]) st)).
  { unfold o1. destruct (truthy jobname); [|reflexivity].
    apply (modify_fresh (heap st) opts
             (fun o => odict.update o [("jobname", jobname)])). }
  run_with J.
  assert (L : (if truthy logfile
               then modify (Obj (List.length (heap st)))
                      (fun o => odict.update o [("logfile", logfile)])
               else ret tt) (set_heap (heap st ++ [o1]) st)
              = (Ok tt,
                 set_heap (heap st ++ [batch_opts jobname logfile opts]) st)).
  { unfold batch_opts. fold o1. destruct (truthy logfile); [|reflexivity].
    apply (modify_fresh (heap st) o1
             (fun o => odict.update o [("logfile", logfile)])). }
  run_with L.
  unfold bind at 1. rewrite remap_options_fresh. simpl glob.
  fold m. fold R.
  destruct (fst R) as [[]|e|]; try reflexivity.
  now run_with (deref_ok _ _ _ (lookup_fresh (heap st) (snd R) st)).
Qed.

Lemma pct_format_bsub command s :
  pct_format "bsub %(opts)s %(command)s"
    [("opts", VStr s); ("command", VStr command)]
  = Ok ("bsub " ++ s ++ " " ++ command).
Proof.
  unfold pct_format. simpl. now rewrite append_empty.
Qed.


(** X9. Building a command line runs no command, writes no log record
    and does not sleep, however it ends: [batch] leaves the trace as it
    found it, and so do [parse_options] and [remap_options]. *)
Theorem X9_batch_silent (self : batch) (st : state) :
  (forall command jobname logfile opts o st',
     batch_cmd self command jobname logfile opts st = (o, st') ->
     trace st' = trace st) /\
  (forall opts o st',
     parse_options self opts st = (o, st') -> trace st' = trace st) /\
  (forall r o st',
     remap_options self r st = (o, st') -> trace st' = trace st).
Proof.
  repeat split; intros.
  - eapply emits_nothing; [apply emits_batch_cmd | eauto].
  - eapply emits_nothing; [apply emits_parse_options | eauto].
  - eapply emits_nothing; [apply emits_remap_options | eauto].
Qed.

(** The command line of an LSF backend. *)
Lemma X9_batch_silent_witness :
  let st := initial "user" (fun _ _ => "") in
  let self := instance_of LSF [] st in
  exists o st',
    batch_cmd self "echo hi" (VStr "j1") VNone [] st = (o, st') /\
    trace st' = trace st.
Proof.
  intros st self.
  exists (fst (batch_cmd self "echo hi" (VStr "j1") VNone [] st)),
         (snd (batch_cmd self "echo hi" (VStr "j1") VNone [] st)).
  split; [apply surjective_pairing|].
  apply (proj1 (X9_batch_silent self st) "echo hi" (VStr "j1") VNone []
           _ _ (surjective_pairing _)).
Defined.

(** X10. When [submit] returns a command line, it is the one that
    [batch] built, the throttle has returned, and the command has been
    run through [call] exactly once, as the last thing done, after a
    debug record; [submit] has run nothing through [call] before it.
    When [submit] raises or is still waiting, it has run nothing
    through [call] at all (the listings of the throttle are run through
    [popen]). *)
Theorem X10_submit_runs_once (fuel : nat) (self : batch) (command : string)
  (jobname logfile : value) (opts : odict value) (st : state)
  (o : outcome string) (st' : state) :
  submit fuel self command jobname logfile opts st = (o, st') ->
  match o with
  | Ok cmd =>
      exists st1 st2,
        batch_cmd self command jobname logfile opts st = (Ok cmd, st1) /\
        throttle fuel self VNone 60 st1 = (Ok tt, st2) /\
        st' = set_trace (trace st2 ++ [ELog LDebug cmd; ECall cmd]) st2 /\
        count_events is_call (trace st2) = count_events is_call (trace st)
  | Raise _ | OutOfFuel =>
      count_events is_call (trace st') = count_events is_call (trace st)
  end.
Proof.
  assert (NC : forall t, Forall (throttle_event self 60) t ->
                         filter is_call t = []).
  { induction 1 as [|e t He _ IH]; simpl; auto.
    destruct He as [->|[->|[n ->]]]; simpl; auto. }
  assert (TH : forall s o' s',
             throttle fuel self VNone 60 s = (o', s') ->
             count_events is_call (trace s') = count_events is_call (trace s)).
  { intros s o' s' E.
    destruct (emits_throttle fuel self VNone 60 s o' s' E) as (t & T & F).
    unfold count_events. now rewrite T, filter_app, (NC t F), app_nil_r. }
  unfold submit, bind.
  destruct (batch_cmd self command jobname logfile opts st)
    as [[cmd|e|] st1] eqn:EB;
    pose proof (emits_nothing _ _ _ _
                  (emits_batch_cmd no_event self command jobname logfile opts)
                  EB) as TB.
  - destruct (throttle fuel self VNone 60 st1) as [[[]|e|] st2] eqn:ET;
      pose proof (TH _ _ _ ET) as TT; rewrite TB in TT.
    + change ((debug cmd ;;; _) st2) with (call self cmd st2).
      rewrite call_eq. intros [= <- <-].
      exists st1, st2. repeat split; auto.
    + intros [= <- <-]. exact TT.
    + intros [= <- <-]. exact TT.
  - intros [= <- <-]. now rewrite TB.
  - intros [= <- <-]. now rewrite TB.
Qed.

(** A submission on a Local backend. *)
Lemma X10_submit_runs_once_witness :
  let st := initial "user" (fun _ _ => "") in
  let self := instance_of Local [] st in
  exists cmd st',
    submit 0 self "echo hi" VNone VNone [] st = (Ok cmd, st') /\
    exists st1 st2,
      batch_cmd self "echo hi" VNone VNone [] st = (Ok cmd, st1) /\
      throttle 0 self VNone 60 st1 = (Ok tt, st2) /\
      st' = set_trace (trace st2 ++ [ELog LDebug cmd; ECall cmd]) st2.
Proof.
  intros st self.
  assert (E : exists cmd st',
             submit 0 self "echo hi" VNone VNone [] st = (Ok cmd, st'))
    by (eexists; eexists; vm_compute; reflexivity).
  destruct E as (cmd & st' & E). exists cmd, st'. split; [exact E|].
  destruct (X10_submit_runs_once 0 self "echo hi" VNone VNone [] st _ _ E)
    as (st1 & st2 & HB & HT & HS & _).
  exists st1, st2. repeat split; assumption.
Defined.


Lemma get_update_none {V} k (d items : odict V) :
  odict.get k items = None ->
  odict.get k (odict.update d items) = odict.get k d.
Proof.
  unfold odict.update. revert d.
  induction items as [|[k' v] r IH]; intros d H; simpl in *; auto.
  destruct (String.eqb k' k) eqn:E; [discriminate|].
  rewrite IH by assumption. apply get_setitem_neq.
  now apply String.eqb_neq.
Qed.

(** A backend built in a state with the tables of the module. *)
Lemma new_ready c kwargs st :
  glob st = globals0 ->
  exists st1,
    new c kwargs st = (Ok (instance_of c kwargs st), st1) /\
    glob st1 = globals0 /\
    lookup_ref (default_opts (instance_of c kwargs st)) st1 =
    Some (instance_opts c kwargs globals0) /\
    trace st1 = (trace st ++ init_warnings c)%list.
Proof.
  intros G. pose proof (new_default_opts c kwargs st) as HD.
  rewrite G in HD. eexists. split; [apply new_eq|].
  rewrite G. repeat split; auto.
Qed.

Lemma truthy_not_none v : truthy v = true -> is_none v = false.
Proof. now destruct v. Qed.

Lemma get_batch_opts_other k jobname logfile opts :
  k <> "jobname" -> k <> "logfile" ->
  odict.get k (batch_opts jobname logfile opts) = odict.get k opts.
Proof.
  intros N1 N2. unfold batch_opts, odict.update.
  destruct (truthy jobname), (truthy logfile); simpl;
    rewrite ?get_setitem_neq by congruence; reflexivity.
Qed.

Lemma get_batch_opts_jobname jobname logfile opts :
  truthy jobname = true ->
  odict.get "jobname" (batch_opts jobname logfile opts) = Some jobname.
Proof.
  intros H. unfold batch_opts, odict.update. rewrite H.
  destruct (truthy logfile); simpl;
    rewrite ?get_setitem_neq by discriminate; apply get_setitem_eq.
Qed.

Lemma get_batch_opts_logfile jobname logfile opts :
  truthy logfile = true ->
  odict.get "logfile" (batch_opts jobname logfile opts) = Some logfile.
Proof.
  intros H. unfold batch_opts, odict.update. rewrite H. simpl.
  apply get_setitem_eq.
Qed.

Lemma NoDup_batch_opts jobname logfile opts :
  NoDup (odict.keys opts) ->
  NoDup (odict.keys (batch_opts jobname logfile opts)).
Proof.
  intros H. unfold batch_opts.
  destruct (truthy jobname), (truthy logfile);
    repeat apply NoDup_keys_update; assumption.
Qed.



(** X12. The command line of an LSF backend whose resource selector is
    the class default: ["bsub "], one flag [-key value ] for each entry
    of the dictionary that [parse_options] has built, a blank and the
    command.  [batch] adds two objects to the store, the remapped
    options of the call and that dictionary, in which a job name given
    to [batch] is under ["J"] and a log file under ["oo"]; the generic
    keys ["jobname"] and ["logfile"] are not in it unless the backend
    was constructed with them, the remapping being applied to the
    options of the call only. *)
Theorem X12_LSF_batch_command (kwargs opts : odict value) (command : string)
  (jobname logfile : value) (st : state) :
  glob st = globals0 ->
  distinct (odict.keys opts) = true ->
  odict.get "R" kwargs = None -> odict.get "R" opts = None ->
  exists self st1 remapped final st2,
    new LSF kwargs st = (Ok self, st1) /\
    batch_cmd self command jobname logfile opts st1 =
    (Ok ("bsub " ++ String.concat "" (map (flag "-") final)
         ++ " " ++ command), st2) /\
    heap st2 = (heap st1 ++ [remapped; final])%list /\
    (truthy jobname = true -> odict.get "J" final = Some jobname) /\
    (truthy logfile = true -> odict.get "oo" final = Some logfile) /\
    (odict.get "jobname" kwargs = None -> odict.get "jobname" final = None) /\
    (odict.get "logfile" kwargs = None -> odict.get "logfile" final = None).
Proof.
  intros G D RK RO. apply distinct_NoDup in D.
  destruct (new_ready LSF kwargs st G) as (st1 & HN & G1 & HD & _).
  set (self := instance_of LSF kwargs st) in *.
  set (inst := instance_opts LSF kwargs globals0) in *.
  pose proof (NoDup_batch_opts jobname logfile opts D) as ND.
  destruct (remap_keys_LSF _ ND) as (R1 & ND3 & GJN & GLF & GJ & GO & GK).
  set (o3 := snd (remap_keys (LSF_mapping globals0)
                    (odict.keys (LSF_mapping globals0))
                    (batch_opts jobname logfile opts))) in *.
  assert (HR : odict.get "R" (odict.update inst o3) =
               Some (VStr (DQUOTE ++ "scratch > 1 && rhel60" ++ DQUOTE))).
  { rewrite get_update_none.
    - unfold inst, instance_opts. rewrite get_update_none; [reflexivity|].
      now rewrite get_remove_neq by discriminate.
    - rewrite GK by discriminate.
      now rewrite get_batch_opts_other by discriminate. }
  destruct (LSF_options_ok globals0 inst o3) as [final HF];
    try discriminate; eauto.
  destruct (LSF_options_spec _ _ _ _ HF) as (_ & OT & _ & _ & _ & _).
  pose proof (batch_cmd_unfold self command jobname logfile opts st1) as E.
  cbv zeta in E. rewrite G1 in E.
  change (mapping_of (cls self) globals0) with (LSF_mapping globals0) in E.
  fold o3 in E. rewrite R1 in E.
  assert (EP : LSF_parse_options self o3 (set_heap (heap st1 ++ [o3]) st1) =
               (Ok (String.concat "" (map (flag "-") final)),
                set_heap (heap (set_heap (heap st1 ++ [o3]) st1) ++ [final])
                  (set_heap (heap st1 ++ [o3]) st1))).
  { apply (LSF_parse_options_built self o3 _ inst final).
    - exact (lookup_ref_extend _ st1 [o3] _ HD).
    - simpl glob. now rewrite G1. }
  unfold parse_options in E. change (cls self) with LSF in E.
  rewrite (bind_ok _ _ _ _ _ EP) in E.
  unfold lift in E. change (submit_cmd self) with "bsub %(opts)s %(command)s" in E.
  rewrite pct_format_bsub in E.
  exists self, st1, o3, final. eexists.
  split; [exact HN|]. split; [exact E|].
  split; [simpl; now rewrite <- app_assoc|].
  repeat split.
  - intros H. rewrite OT by discriminate. rewrite get_update by assumption.
    rewrite GJ. unfold get_value.
    rewrite (get_batch_opts_jobname _ _ _ H), (truthy_not_none _ H).
    reflexivity.
  - intros H. rewrite OT by discriminate. rewrite get_update by assumption.
    rewrite GO. unfold get_value.
    rewrite (get_batch_opts_logfile _ _ _ H), (truthy_not_none _ H).
    reflexivity.
  - intros H. rewrite OT by discriminate. rewrite get_update by assumption.
    rewrite GJN. unfold inst, instance_opts.
    rewrite get_update_none; [reflexivity|].
    now rewrite get_remove_neq by discriminate.
  - intros H. rewrite OT by discriminate. rewrite get_update by assumption.
    rewrite GLF. unfold inst, instance_opts.
    rewrite get_update_none; [reflexivity|].
    now rewrite get_remove_neq by discriminate.
Qed.

(** An LSF backend with a job name and a log file: the command line. *)
Lemma X12_LSF_batch_command_witness :
  let st := initial "user" (fun _ _ => "") in
  (glob st = globals0 /\
   distinct (odict.keys (@nil (string * value))) = true) /\
  exists self st1,
    new LSF [] st = (Ok self, st1) /\
    exists st2,
      batch_cmd self "echo hi" (VStr "j1") (VStr "out.log") [] st1 =
      (Ok ("bsub -R " ++ DQUOTE ++ "scratch > 1 && rhel60" ++ DQUOTE
           ++ " -C 0 -J j1 -oo out.log -W 4:00  echo hi"), st2).
Proof.
  intros st. split; [split; reflexivity|].
  destruct (X12_LSF_batch_command [] [] "echo hi" (VStr "j1")
              (VStr "out.log") st eq_refl eq_refl eq_refl eq_refl)
    as (self & st1 & _ & _ & _ & HN & _).
  exists self, st1. split; [exact HN|].
  rewrite new_eq in HN. injection HN as <- <-.
  eexists. vm_compute. reflexivity.
Defined.


(** X14. A Condor backend, or an instance of the base class, cannot
    build a command line even when it is constructed directly: the
    class has no [parse_options], so [batch] raises [AttributeError],
    and [submit] raises it before it throttles: nothing is polled,
    logged or run. *)
Theorem X14_no_parse_options_no_submit (c : klass) (kwargs opts : odict value)
  (fuel : nat) (command : string) (jobname logfile : value) (st : state) :
  glob st = globals0 ->
  c = Condor \/ c = Batch ->
  exists self st1 msg st2,
    new c kwargs st = (Ok self, st1) /\
    batch_cmd self command jobname logfile opts st1 =
      (Raise (AttributeError msg), st2) /\
    submit fuel self command jobname logfile opts st1 =
      (Raise (AttributeError msg), st2) /\
    trace st2 = trace st1.
Proof.
  intros G Hc.
  destruct (new_ready c kwargs st G) as (st1 & HN & G1 & _ & _).
  pose proof (batch_cmd_unfold (instance_of c kwargs st) command jobname
                logfile opts st1) as E.
  cbv zeta in E. rewrite G1, cls_instance_of in E.
  unfold parse_options in E. rewrite cls_instance_of in E.
  exists (instance_of c kwargs st), st1.
  destruct Hc as [-> | ->];
    (eexists; eexists; split; [exact HN|]; split; [exact E|];
     split; [unfold submit; now rewrite (bind_fail _ _ _ _ _ E) | reflexivity]).
Qed.

(** A Condor backend constructed without the factory. *)
Lemma X14_no_parse_options_no_submit_witness :
  let st := initial "user" (fun _ _ => "") in
  glob st = globals0 /\
  exists self st1 msg st2,
    new Condor [("max_jobs", VInt 2)] st = (Ok self, st1) /\
    submit 5 self "echo hi" VNone VNone [] st1 =
    (Raise (AttributeError msg), st2) /\
    trace st2 = trace st1.
Proof.
  intros st. split; [reflexivity|].
  destruct (X14_no_parse_options_no_submit Condor [("max_jobs", VInt 2)] []
              5 "echo hi" VNone VNone st eq_refl (or_introl eq_refl))
    as (self & st1 & msg & st2 & HN & _ & HS & HT).
  exists self, st1, msg, st2. repeat split; assumption.
Defined.

(** X11. The command line of a Local backend is the command, a blank,
    and the clause that pipes the output to [tee] when a log file is
    given, nothing otherwise (the line then ends with the blank).  The
    job name, the other options of the call and the options given at
    construction take no part in it. *)
Theorem X11_Local_batch_command (kwargs opts : odict value) (command : string)
  (jobname logfile : value) (st : state) :
  glob st = globals0 ->
  truthy logfile = true \/ truthy (get_value "logfile" opts) = false ->
  exists self st1 st2,
    new Local kwargs st = (Ok self, st1) /\
    batch_cmd self command jobname logfile opts st1 =
    (Ok (command ++ " " ++
         if truthy logfile then " 2>&1 | tee " ++ str logfile else ""), st2).
Proof.
  intros G H.
  destruct (new_ready Local kwargs st G) as (st1 & HN & G1 & _ & _).
  pose proof (batch_cmd_unfold (instance_of Local kwargs st) command jobname
                logfile opts st1) as E.
  cbv zeta in E. rewrite G1 in E.
  change (remap_keys _ _ (batch_opts jobname logfile opts))
    with (@Ok unit tt, batch_opts jobname logfile opts) in E.
  cbv beta iota delta [fst snd] in E.
  unfold parse_options in E.
  change (cls (instance_of Local kwargs st)) with Local in E.
  cbv iota in E. unfold Local_parse_options in E.
  change (submit_cmd (instance_of Local kwargs st))
    with "%(command)s %(opts)s" in E.
  exists (instance_of Local kwargs st), st1. eexists. split; [exact HN|].
  destruct (truthy logfile) eqn:HL.
  - unfold get_value in E.
    rewrite (get_batch_opts_logfile _ _ _ HL), HL in E.
    rewrite bind_lift in E.
    rewrite (pct_format_logfile _ _ (get_batch_opts_logfile _ _ _ HL)) in E.
    unfold lift in E. rewrite pct_format_local in E. exact E.
  - destruct H as [H|H]; [discriminate|].
    assert (HG : get_value "logfile" (batch_opts jobname logfile opts)
                 = get_value "logfile" opts).
    { unfold get_value, batch_opts, odict.update. rewrite HL.
      destruct (truthy jobname); simpl;
        rewrite ?get_setitem_neq by discriminate; reflexivity. }
    rewrite HG, H, bind_ret in E.
    unfold lift in E. rewrite pct_format_local in E. exact E.
Qed.

(** A Local backend without a log file. *)
Lemma X11_Local_batch_command_witness :
  let st := initial "user" (fun _ _ => "") in
  (glob st = globals0 /\ truthy (get_value "logfile" [("n", VInt 4)]) = false) /\
  exists self st1 st2,
    new Local [("q", VStr "long")] st = (Ok self, st1) /\
    batch_cmd self "echo hi" (VStr "j1") VNone [("n", VInt 4)] st1 =
    (Ok "echo hi ", st2).
Proof.
  intros st. split; [split; reflexivity|].
  destruct (X11_Local_batch_command [("q", VStr "long")] [("n", VInt 4)]
              "echo hi" (VStr "j1") VNone st eq_refl (or_intror eq_refl))
    as (self & st1 & st2 & HN & HB).
  exists self, st1, st2. split; [exact HN | exact HB].
Defined.




(** X7. On a Local backend a positive ceiling never holds a submission
    back: [throttle] returns at its first turn without running the
    listing command, logging or sleeping, because [Local.njobs] is 0
    whatever the queue is. *)
Theorem X7_Local_throttle_positive_ceiling (self : batch) (max_jobs' : value)
  (sleep m : Z) (st : state) (fuel : nat) :
  cls self = Local ->
  ceiling self max_jobs' = VInt m -> 0 < m ->
  throttle (S fuel) self max_jobs' sleep st = (Ok tt, st).
Proof.
  intros HL HC Hm. rewrite throttle_eq, HC. simpl is_none. cbv iota.
  now apply throttle_loop_Local_pass.
Qed.

(** A Local backend built with the ceiling 1. *)
Lemma X7_Local_throttle_positive_ceiling_witness :
  let st := initial "user" (fun _ _ => "") in
  let self := instance_of Local [("max_jobs", VInt 1)] st in
  (cls self = Local /\ ceiling self VNone = VInt 1 /\ 0 < 1) /\
  throttle 1 self VNone 60 st = (Ok tt, st).
Proof.
  intros st self. split; [repeat split; lia|].
  apply (X7_Local_throttle_positive_ceiling self VNone 60 1 st 0);
    [reflexivity | reflexivity | lia].
Defined.

Lemma get_instance_opts c kwargs k :
  NoDup (odict.keys kwargs) -> k <> "max_jobs" ->
  odict.get k (instance_opts c kwargs globals0) =
  match odict.get k kwargs with
  | Some v => Some v
  | None => odict.get k (class_defaults c globals0)
  end.
Proof.
  intros ND N. unfold instance_opts.
  rewrite get_update by now apply NoDup_keys_remove.
  rewrite get_remove_neq by congruence. reflexivity.
Qed.

(** X4. The constructor of every class returns an instance of that
    class, with the user name of the operating system and with the
    value of ["max_jobs"] as its ceiling ([None] when it is not given).
    The ceiling is not an option: the defaults of the instance have no
    key ["max_jobs"]; for every other key they hold the keyword
    argument, or the class default when there is none. *)
Theorem X4_constructor_contract (c : klass) (kwargs : odict value) (st : state) :
  glob st = globals0 ->
  distinct (odict.keys kwargs) = true ->
  exists self st1 d,
    new c kwargs st = (Ok self, st1) /\
    cls self = c /\
    user self = username st /\
    max_jobs self = get_value "max_jobs" kwargs /\
    lookup_ref (default_opts self) st1 = Some d /\
    odict.get "max_jobs" d = None /\
    (forall k, k <> "max_jobs" ->
       odict.get k d =
       match odict.get k kwargs with
       | Some v => Some v
       | None => odict.get k (class_defaults c globals0)
       end).
Proof.
  intros G D. apply distinct_NoDup in D.
  destruct (new_ready c kwargs st G) as (st1 & HN & _ & HD & _).
  exists (instance_of c kwargs st), st1, (instance_opts c kwargs globals0).
  split; [exact HN|]. split; [apply cls_instance_of|].
  split; [destruct c; reflexivity|]. split; [destruct c; reflexivity|].
  split; [exact HD|]. split.
  - unfold instance_opts.
    rewrite get_update by now apply NoDup_keys_remove.
    rewrite get_remove_eq by assumption. destruct c; reflexivity.
  - intros k N. now apply get_instance_opts.
Qed.

(** An LSF backend built with a ceiling and a queue. *)
Lemma X4_constructor_contract_witness :
  let st := initial "user" (fun _ _ => "") in
  let kwargs := [("max_jobs", VInt 3); ("q", VStr "long")] in
  (glob st = globals0 /\ distinct (odict.keys kwargs) = true) /\
  exists self st1 d,
    new LSF kwargs st = (Ok self, st1) /\
    max_jobs self = VInt 3 /\
    lookup_ref (default_opts self) st1 = Some d /\
    odict.get "max_jobs" d = None.
Proof.
  intros st kwargs. split; [split; reflexivity|].
  destruct (X4_constructor_contract LSF kwargs st eq_refl eq_refl)
    as (self & st1 & d & HN & _ & _ & HM & HD & HG & _).
  exists self, st1, d. repeat split; assumption.
Defined.

(** X2. The factory sets the queue only when it has to: a ["q"] given
    by the caller is kept, whatever the name is, and a name that is a
    cluster alias and not a queue name adds no ["q"].  In both cases
    the defaults of the backend have for ["q"] what the caller gave. *)
Theorem X2_factory_keeps_queue (str_lower : string -> string)
  (queue : option string) (kwargs : odict value) (c : klass) (st : state) :
  glob st = globals0 ->
  distinct (odict.keys kwargs) = true ->
  family (factory_name str_lower queue) = Some c -> c <> Condor ->
  odict.get "q" kwargs <> None \/
  mem (factory_name str_lower queue) (all_queues globals0) = false ->
  exists self st1 d,
    factory str_lower queue kwargs st = (Ok self, st1) /\
    cls self = c /\
    lookup_ref (default_opts self) st1 = Some d /\
    odict.get "q" d = odict.get "q" kwargs.
Proof.
  intros G D HF HC HQ. apply distinct_NoDup in D.
  destruct (factory_ok str_lower queue kwargs st c G HF HC)
    as (st1 & E & _ & HD).
  assert (K : factory_kwargs globals0 (factory_name str_lower queue) kwargs
              = kwargs).
  { unfold factory_kwargs, odict.setdefault.
    destruct (mem (factory_name str_lower queue) (all_queues globals0)); auto.
    destruct HQ as [HQ|HQ]; [|discriminate].
    destruct (odict.get "q" kwargs); congruence. }
  rewrite K in *.
  exists (instance_of c kwargs st), st1, (instance_opts c kwargs globals0).
  split; [exact E|]. split; [apply cls_instance_of|]. split; [exact HD|].
  rewrite get_instance_opts by (auto; discriminate).
  destruct (odict.get "q" kwargs); auto. destruct c; reflexivity.
Qed.

(** The cluster alias [slac] sets no queue. *)
Lemma X2_factory_keeps_queue_witness :
  let st := initial "user" (fun _ _ => "") in
  (glob st = globals0 /\
   distinct (odict.keys (@nil (string * value))) = true /\
   family (factory_name ascii_lower (Some "slac")) = Some LSF /\
   mem (factory_name ascii_lower (Some "slac")) (all_queues globals0) = false)
  /\
  exists self st1 d,
    factory ascii_lower (Some "slac") [] st = (Ok self, st1) /\
    cls self = LSF /\
    lookup_ref (default_opts self) st1 = Some d /\
    odict.get "q" d = None.
Proof.
  intros st. split; [repeat split|].
  destruct (X2_factory_keeps_queue ascii_lower (Some "slac") [] LSF st
              eq_refl eq_refl eq_refl ltac:(discriminate) (or_intror eq_refl))
    as (self & st1 & d & HF & HC & HD & HQ).
  exists self, st1, d. repeat split; assumption.
Defined.

(** Every queue name of LSF selects the LSF family, is found by the test
    on the union of the queue names and has a run limit of its own. *)
Lemma lsf_queue_facts name l :
  odict.get "lsf" QUEUES0 = Some l -> mem name l = true ->
  family name = Some LSF /\
  mem name (all_queues globals0) = true /\
  exists w, qfind (Some name) RUNLIMITS0 = Some w.
Proof.
  intros [= <-] H. apply mem_In in H. simpl in H.
  repeat (destruct H as [<-|H]; [repeat split; eexists; reflexivity|]).
  destruct H.
Qed.

(** X3. The queue name given to the factory selects the wallclock
    limit: for every name that [str.lower] turns into a queue name of
    LSF, when neither the caller of the factory nor the call of
    [parse_options] gives ["q"], ["W"] or ["R"], the factory returns an
    LSF backend whose [parse_options] returns one flag [-key value ]
    for each entry of the dictionary it has built, the one object it
    adds to the store, and in that dictionary ["q"] is the lowered name
    and ["W"] the entry of that name in the table [RUNLIMITS], which
    exists. *)
Theorem X3_factory_queue_wallclock (str_lower : string -> string)
  (queue : option string) (kwargs opts : odict value) (l : list string)
  (st : state) :
  glob st = globals0 ->
  distinct (odict.keys kwargs) = true ->
  odict.get "lsf" QUEUES0 = Some l ->
  mem (factory_name str_lower queue) l = true ->
  odict.get "q" kwargs = None -> odict.get "W" kwargs = None ->
  odict.get "R" kwargs = None ->
  odict.get "q" opts = None -> odict.get "W" opts = None ->
  odict.get "R" opts = None ->
  exists self st1 final st2 w,
    factory str_lower queue kwargs st = (Ok self, st1) /\
    cls self = LSF /\
    parse_options self opts st1 =
      (Ok (String.concat "" (map (flag "-") final)), st2) /\
    heap st2 = (heap st1 ++ [final])%list /\
    odict.get "q" final = Some (VStr (factory_name str_lower queue)) /\
    qfind (Some (factory_name str_lower queue)) RUNLIMITS0 = Some w /\
    odict.get "W" final = Some (VStr w).
Proof.
  intros G D HL HM Kq KW KR Oq OW OR. apply distinct_NoDup in D.
  destruct (lsf_queue_facts _ _ HL HM) as (HF & HA & w & Hw).
  destruct (factory_ok str_lower queue kwargs st LSF G HF)
    as (st1 & E & G1 & HD); [discriminate|].
  unfold factory_kwargs in *. rewrite HA in *.
  set (name := factory_name str_lower queue) in *.
  set (kw := odict.setdefault "q" (VStr name) kwargs) in *.
  set (inst := instance_opts LSF kw globals0) in *.
  assert (NK : NoDup (odict.keys kw)) by now apply NoDup_keys_setdefault.
  assert (Iq : odict.get "q" inst = Some (VStr name))
    by now apply instance_opts_q.
  assert (IW : odict.get "W" inst = None).
  { unfold inst. rewrite get_instance_opts by (auto; discriminate).
    unfold kw. rewrite get_setdefault, KW. reflexivity. }
  assert (IR : odict.get "R" inst =
               Some (VStr (DQUOTE ++ "scratch > 1 && rhel60" ++ DQUOTE))).
  { unfold inst. rewrite get_instance_opts by (auto; discriminate).
    unfold kw. rewrite get_setdefault, KR. reflexivity. }
  assert (Mq : odict.get "q" (odict.update inst opts) = Some (VStr name))
    by now rewrite get_update_none.
  assert (MW : odict.get "W" (odict.update inst opts) = None)
    by now rewrite get_update_none.
  assert (MR : odict.get "R" (odict.update inst opts) =
               Some (VStr (DQUOTE ++ "scratch > 1 && rhel60" ++ DQUOTE)))
    by now rewrite get_update_none.
  destruct (LSF_options_ok globals0 inst opts) as [final HO];
    try discriminate; eauto.
  destruct (LSF_options_spec _ _ _ _ HO) as (_ & OT & _ & WN & _ & _).
  assert (EP : LSF_parse_options (instance_of LSF kw st) opts st1 =
               (Ok (String.concat "" (map (flag "-") final)),
                set_heap (heap st1 ++ [final]) st1)).
  { apply (LSF_parse_options_built _ opts _ inst final HD). now rewrite G1. }
  exists (instance_of LSF kw st), st1, final. eexists. exists w.
  split; [exact E|]. split; [reflexivity|].
  split; [unfold parse_options; exact EP|].
  split; [reflexivity|].
  split; [rewrite OT by discriminate; exact Mq|].
  split; [exact Hw|].
  destruct (WN MW) as (w' & Hw' & HW).
  unfold get_value in Hw'. rewrite Mq in Hw'.
  unfold qget, qdefault in Hw'.
  change (qlookup (VStr name) (RUNLIMITS globals0))
    with (qfind (Some name) RUNLIMITS0) in Hw'.
  rewrite Hw in Hw'. now injection Hw' as <-.
Qed.

(** The queue [Express], with a capital: the flags that the backend of
    the factory returns. *)
Lemma X3_factory_queue_wallclock_witness :
  let st := initial "user" (fun _ _ => "") in
  let l := ["express"; "short"; "medium"; "long"; "xlong"; "xxl";
            "kipac-ibq"; "bulletmpi"] in
  (glob st = globals0 /\ odict.get "lsf" QUEUES0 = Some l /\
   mem (factory_name ascii_lower (Some "Express")) l = true) /\
  exists self st1,
    factory ascii_lower (Some "Express") [] st = (Ok self, st1) /\
    exists st2,
      parse_options self [] st1 =
      (Ok ("-R " ++ DQUOTE ++ "scratch > 1 && rhel60" ++ DQUOTE
           ++ " -C 0 -q express -W 0:04 "), st2).
Proof.
  intros st l. split; [repeat split|].
  destruct (X3_factory_queue_wallclock ascii_lower (Some "Express") [] [] l st
              eq_refl eq_refl eq_refl eq_refl eq_refl eq_refl eq_refl
              eq_refl eq_refl eq_refl)
    as (self & st1 & _ & _ & _ & HF & _).
  exists self, st1. split; [exact HF|].
  vm_compute in HF. injection HF as <- <-.
  eexists. vm_compute. reflexivity.
Defined.
